(** * Veyon: the Linux service core (plugins/platform/linux/LinuxServiceCore.cpp)

    A shallow embedding of [LinuxServiceCore]: the supervisor that starts one
    Veyon server process per graphical login1 session and stops it when the
    session goes away.  Qt containers are modelled by their documented
    behaviour; every call that leaves the class (D-Bus, procps, QProcess,
    logging) is recorded in a trace of effects carried by the object state. *)

From Stdlib Require Import ZArith Ascii String List Bool Lia.
From Stdlib Require Import Decimal DecimalString DecimalPos DecimalZ.
From stdpp Require Import base option gmap strings list fin_maps.

Import ListNotations.
Local Open Scope Z_scope.

(** ** QString and QStringList *)

Module QString.

(** [QString::split(QChar sep)] with the default [KeepEmptyParts]: the
    pieces between consecutive separators; never the empty list. *)
Fixpoint split (sep : ascii) (s : string) : list string :=
  match s with
  | EmptyString => [EmptyString]
  | String c s' =>
      if Ascii.eqb c sep then EmptyString :: split sep s'
      else match split sep s' with
           | [] => [String c EmptyString]
           | p :: ps => String c p :: ps
           end
  end.

(** [QStringList::join(QChar sep)]. *)
Fixpoint join (sep : ascii) (l : list string) : string :=
  match l with
  | [] => EmptyString
  | [x] => x
  | x :: rest => String.append x (String sep (join sep rest))
  end.

(** [QList::first()]; the list is never empty where the code calls it. *)
Definition first (l : list string) : string := List.hd EmptyString l.

(** [QList::mid(pos)]: the sublist from index [pos] to the end. *)
Definition mid (pos : nat) (l : list string) : list string := List.skipn pos l.

Definition isEmpty (s : string) : bool :=
  match s with EmptyString => true | _ => false end.

(** Does the character occur in the string? *)
Fixpoint contains (c : ascii) (s : string) : bool :=
  match s with
  | EmptyString => false
  | String a s' => Ascii.eqb a c || contains c s'
  end.

(** [QString::number(int)]: the decimal form, with a leading ['-'] for a
    negative number. *)
Definition number (n : Z) : string := NilZero.string_of_int (Z.to_int n).

(** White space in the sense of [QChar::isSpace], for the Latin-1 range:
    blank, tab, line feed, vertical tab, form feed, carriage return. *)
Definition isSpace (c : ascii) : bool :=
  match c with
  | " " | "009" | "010" | "011" | "012" | "013" => true
  | _ => false
  end%char.

Fixpoint dropSpaces (s : string) : string :=
  match s with
  | EmptyString => EmptyString
  | String c s' => if isSpace c then dropSpaces s' else s
  end.

Definition reverse (s : string) : string :=
  string_of_list_ascii (List.rev (list_ascii_of_string s)).

(** [QString::trimmed]: white space removed from both ends. *)
Definition trimmed (s : string) : string :=
  reverse (dropSpaces (reverse (dropSpaces s))).

(** The number a string denotes for the conversions of the C locale:
    surrounding white space is skipped, then an optional sign and at
    least one decimal digit must make up the rest. *)
Definition toNumber (s : string) : option Z :=
  match trimmed s with
  | String "+" r =>
      match r with
      | String "-" _ => None
      | _ => option_map Z.of_int (NilZero.int_of_string r)
      end
  | t => option_map Z.of_int (NilZero.int_of_string t)
  end.

(** [QString::toInt()]: the number when there is one and it fits an
    [int], and 0 when the conversion fails. *)
Definition toInt (s : string) : Z :=
  match toNumber s with
  | Some z => if (- 2 ^ 31 <=? z) && (z <=? 2 ^ 31 - 1) then z else 0
  | None => 0
  end.

End QString.

(** ** C [int] *)

Definition INT_MIN : Z := - 2 ^ 31.
Definition INT_MAX : Z := 2 ^ 31 - 1.

Definition is_int (z : Z) : Prop := INT_MIN <= z <= INT_MAX.

(** Conversion of an integer to [int]: wrap-around modulo [2^32]. *)
Definition to_int (z : Z) : Z := (z + 2 ^ 31) mod 2 ^ 32 - 2 ^ 31.

(** ** procps: the process table *)

(** The fields of [proc_t] the code reads.  [readproc] yields one entry per
    process, whose [tid] is the process id.  [environ] is the
    NULL-terminated vector of raw [NAME=value] strings, or NULL. *)
Record proc_t := {
  tid : Z;
  ppid : Z;
  environ : option (list string)
}.

(** ** QProcessEnvironment *)

Abbreviation QProcessEnvironment := (gmap string string).

Definition eq_char : ascii := "="%char.

(** Lines 269-270: one raw entry is split at ['='], the first piece is the
    name and the remaining pieces, joined by ['='] again, the value. *)
Definition parseEntry (raw : string) : string * string :=
  let env := QString.split eq_char raw in
  (QString.first env, QString.join eq_char (QString.mid 1 env)).

Definition insertEntry (sessionEnv : QProcessEnvironment) (raw : string)
  : QProcessEnvironment :=
  let kv := parseEntry raw in
  <[ kv.1 := kv.2 ]> sessionEnv.

(** The body of the [for] loop of lines 267-271. *)
Definition insertEntries (sessionEnv : QProcessEnvironment) (block : list string)
  : QProcessEnvironment :=
  fold_left insertEntry block sessionEnv.

(** [QList<int>::contains]. *)
Definition ppids_contains (ppids : list Z) (p : Z) : bool :=
  existsb (Z.eqb p) ppids.

(** The test of lines 264-265. *)
Definition selected (sessionLeaderPid : Z) (ppids : list Z) (procInfo : proc_t) : bool :=
  (Z.eqb (ppid procInfo) sessionLeaderPid || ppids_contains ppids (ppid procInfo))
  && match environ procInfo with Some _ => true | None => false end.

(** One iteration of the [while( readproc )] loop, lines 262-277. *)
Definition scanStep (sessionLeaderPid : Z)
    (st : QProcessEnvironment * list Z) (procInfo : proc_t)
  : QProcessEnvironment * list Z :=
  let '(sessionEnv, ppids) := st in
  if selected sessionLeaderPid ppids procInfo then
    (insertEntries sessionEnv (default [] (environ procInfo)),
     ppids ++ [tid procInfo])
  else (sessionEnv, ppids).

Definition scan (sessionLeaderPid : Z) (table : list proc_t)
    (st : QProcessEnvironment * list Z) : QProcessEnvironment * list Z :=
  fold_left (scanStep sessionLeaderPid) table st.

(** [LinuxServiceCore::getSessionEnvironment], over the sequence of
    [proc_t] that successive [readproc] calls return. *)
Definition getSessionEnvironment (table : list proc_t) (sessionLeaderPid : Z)
  : QProcessEnvironment :=
  (scan sessionLeaderPid table (∅, [])).1.

(** The table of the environment-merge scenario, for a leader pid [P]. *)
Definition mergeScenario (P : Z) : list proc_t :=
  [ {| tid := 10; ppid := P;   environ := Some ["A=1"%string] |};
    {| tid := 11; ppid := 10;  environ := Some ["B=2"%string] |};
    {| tid := 12; ppid := 999; environ := Some ["C=3"%string] |} ].

(** ** QMap<QString, V>

    A [QMap] keeps its items sorted by key; it is modelled by the list of
    its items in iteration order.  Keys are compared character by
    character, as [QString::operator<] does. *)

Module QMap.
Section Ops.
Context {V : Type}.

Definition t := list (string * V).

Definition isEmpty (m : t) : bool :=
  match m with [] => true | _ => false end.

(** [QMap::contains]. *)
Fixpoint contains (k : string) (m : t) : bool :=
  match m with
  | [] => false
  | (k', _) :: m' => String.eqb k k' || contains k m'
  end.

(** The item stored under a key, if any. *)
Fixpoint find (k : string) (m : t) : option V :=
  match m with
  | [] => None
  | (k', v) :: m' => if String.eqb k k' then Some v else find k m'
  end.

(** [m[k] = v]: the value of an existing item is replaced, a new item
    goes to its place in key order. *)
Fixpoint assign (k : string) (v : V) (m : t) : t :=
  match m with
  | [] => [(k, v)]
  | (k', v') :: m' =>
      match String.compare k k' with
      | Lt => (k, v) :: m
      | Eq => (k, v) :: m'
      | Gt => (k', v') :: assign k v m'
      end
  end.

(** [QMap::remove]: every item with that key goes. *)
Fixpoint remove (k : string) (m : t) : t :=
  match m with
  | [] => []
  | (k', v) :: m' =>
      if String.eqb k k' then remove k m' else (k', v) :: remove k m'
  end.

(** [QMap::firstKey]; the map is not empty where the code calls it. *)
Definition firstKey (m : t) : string :=
  match m with
  | [] => EmptyString
  | (k, _) :: _ => k
  end.

Definition keys (m : t) : list string := List.map fst m.
Definition values (m : t) : list V := List.map snd m.

(** The representation invariant: keys strictly increasing. *)
Definition below (k : string) (m : t) : Prop :=
  Forall (fun kv => String.compare k (fst kv) = Lt) m.

Fixpoint sorted (m : t) : Prop :=
  match m with
  | [] => True
  | (k, _) :: m' => below k m' /\ sorted m'
  end.

(** How many items does the map hold for a key? *)
Definition count (k : string) (m : t) : nat :=
  List.length (List.filter (fun kv => String.eqb k (fst kv)) m).

End Ops.
Arguments t : clear implicits.
End QMap.

(** ** D-Bus values *)

Record QDBusObjectPath := ObjectPath { path : string }.

Inductive QDBusReply (A : Type) : Type :=
| Valid (value : A)
| Error (message : string).
Arguments Valid {A} value.
Arguments Error {A} message.

(** The values a login1 property read can carry: nothing ([QVariant()]),
    a string, an unsigned number, or a [QDBusArgument] holding the
    structure (id, object path) of the [Seat] property. *)
Inductive QVariant :=
| Null
| VString (s : string)
| VUInt (u : Z)
| VStruct (id : string) (objectPath : string).

Module Variant.

Definition isNull (v : QVariant) : bool :=
  match v with Null => true | _ => false end.

(** [QVariant::toString]: empty for what is not convertible. *)
Definition toString (v : QVariant) : string :=
  match v with
  | VString s => s
  | VUInt u => QString.number u
  | _ => EmptyString
  end.

(** [QVariant::toInt]: 0 for what is not convertible. *)
Definition toInt (v : QVariant) : Z :=
  match v with
  | VString s => QString.toInt s
  | VUInt u => to_int u
  | _ => 0
  end.

End Variant.

Module LoginDBusSession.
Record t := {
  id : string;
  uid : Z;
  name : string;
  seatId : string;
  path : QDBusObjectPath
}.
End LoginDBusSession.

Module LoginDBusSessionSeat.
Record t := { id : string; path : string }.
End LoginDBusSessionSeat.

(** ** The world outside the service

    What the system answers while one call of the service runs: the login
    manager over D-Bus, the process table, and the session registry. *)
Record World := {
  ListSessions : QDBusReply (list LoginDBusSession.t);
  Get : string -> string -> QDBusReply QVariant;
  readproc : list proc_t;
  openSession : list string -> Z
}.

(** ** Effects *)

Definition handle := nat.

Inductive Effect :=
| DBusListSessions
| DBusGet (session property : string)
| LogCritical (text : list string)
| LogInfo (text : list string)
| ProcScan (sessionLeaderPid : Z)
| OpenSession (arguments : list string) (sessionId : Z)
| CloseSession (sessionId : Z)
| ProcessStart (process : handle) (program : string) (environment : QProcessEnvironment)
| ProcessTerminate (process : handle)
| ProcessDelete (process : handle)
| DBusConnect (signal : string)
| EventLoopExec.

(** A [QProcess] object: the environment set on it and the program it was
    started with. *)
Record QProcess := {
  processEnvironment : QProcessEnvironment;
  program : string
}.

(** ** The object state *)

Record LinuxServiceCore := mkCore {
  m_multiSession : bool;
  m_serverProcesses : QMap.t handle;
  children : gmap nat QProcess;
  nextHandle : handle;
  trace : list Effect
}.

Definition emit (e : Effect) (s : LinuxServiceCore) : LinuxServiceCore :=
  mkCore (m_multiSession s) (m_serverProcesses s) (children s) (nextHandle s)
         (trace s ++ [e]).

Definition setServerProcesses (m : QMap.t handle) (s : LinuxServiceCore) :=
  mkCore (m_multiSession s) m (children s) (nextHandle s) (trace s).

(** [new QProcess( this )] followed by [setProcessEnvironment] and [start]. *)
Definition newProcess (env : QProcessEnvironment) (prog : string)
    (s : LinuxServiceCore) : handle * LinuxServiceCore :=
  let h := nextHandle s in
  (h, mkCore (m_multiSession s) (m_serverProcesses s)
             (<[ h := {| processEnvironment := env; program := prog |} ]> (children s))
             (S h)
             (trace s ++ [ProcessStart h prog env])).

(** [delete process]. *)
Definition deleteProcess (h : handle) (s : LinuxServiceCore) : LinuxServiceCore :=
  mkCore (m_multiSession s) (m_serverProcesses s) (delete h (children s))
         (nextHandle s) (trace s ++ [ProcessDelete h]).

(** What a call can end in besides its result. *)
Inductive Fault := NullPointer | Dangling | OutOfFuel.

Inductive Outcome (A : Type) : Type :=
| Done (a : A)
| Failed (f : Fault).
Arguments Done {A} a.
Arguments Failed {A} f.

Definition bind {A B : Type} (o : Outcome A) (k : A -> Outcome B) : Outcome B :=
  match o with
  | Done a => k a
  | Failed f => Failed f
  end.

(** ** LinuxServiceCore *)

(** Signals of the login manager, as the event loop delivers them. *)
Inductive Notification :=
| SessionNew (login1SessionId : string) (sessionObjectPath : QDBusObjectPath)
| SessionRemoved (login1SessionId : string) (sessionObjectPath : QDBusObjectPath).

Section Service.

(** [VeyonCore::sessionIdEnvironmentVariable()] and
    [VeyonCore::filesystem().serverFilePath()]. *)
Variable sessionIdEnvironmentVariable : string.
Variable serverFilePath : string.

(** The constructor: the two signal connections, and the configured mode. *)
Definition constructor (isMultiSessionServiceEnabled : bool) : LinuxServiceCore :=
  mkCore isMultiSessionServiceEnabled [] ∅ 0%nat
         [DBusConnect "SessionNew"; DBusConnect "SessionRemoved"].

Definition getSessionProperty (w : World) (session property : string)
    (s : LinuxServiceCore) : QVariant * LinuxServiceCore :=
  let s1 := emit (DBusGet session property) s in
  match Get w session property with
  | Error msg =>
      (Null, emit (LogCritical ["Could not query session property"; property; msg]) s1)
  | Valid v => (v, s1)
  end.

Definition getSessionLeaderPid (w : World) (session : string)
    (s : LinuxServiceCore) : Z * LinuxServiceCore :=
  let '(leader, s1) := getSessionProperty w session "Leader" s in
  if Variant.isNull leader then (-1, s1) else (Variant.toInt leader, s1).

Definition getSessionDisplay (w : World) (session : string)
    (s : LinuxServiceCore) : string * LinuxServiceCore :=
  let '(v, s1) := getSessionProperty w session "Display" s in
  (Variant.toString v, s1).

Definition getSessionId (w : World) (session : string)
    (s : LinuxServiceCore) : string * LinuxServiceCore :=
  let '(v, s1) := getSessionProperty w session "Id" s in
  (Variant.toString v, s1).

Definition getSessionSeat (w : World) (session : string)
    (s : LinuxServiceCore) : LoginDBusSessionSeat.t * LinuxServiceCore :=
  let '(seatArgument, s1) := getSessionProperty w session "Seat" s in
  match seatArgument with
  | VStruct i p => ({| LoginDBusSessionSeat.id := i; LoginDBusSessionSeat.path := p |}, s1)
  | _ => ({| LoginDBusSessionSeat.id := ""; LoginDBusSessionSeat.path := "" |}, s1)
  end.

(** [getSessionEnvironment] as a call of the object: the scan of the
    process table is an effect. *)
Definition readSessionEnvironment (w : World) (sessionLeaderPid : Z)
    (s : LinuxServiceCore) : QProcessEnvironment * LinuxServiceCore :=
  (getSessionEnvironment (readproc w) sessionLeaderPid,
   emit (ProcScan sessionLeaderPid) s).

(** [QProcessEnvironment::isEmpty]. *)
Definition env_isEmpty (e : QProcessEnvironment) : bool := bool_decide (e = ∅).

(** [QProcessEnvironment::value]: the empty string for an unset name. *)
Definition env_value (e : QProcessEnvironment) (name : string) : string :=
  default EmptyString (e !! name).

(** Lines 97-101. *)
Definition addSessionId (w : World) (sessionPath sessionDisplay seatPath : string)
    (sessionEnvironment : QProcessEnvironment) (s : LinuxServiceCore)
  : QProcessEnvironment * LinuxServiceCore :=
  if m_multiSession s then
    let arguments := [sessionPath; sessionDisplay; seatPath] in
    let sessionId := openSession w arguments in
    (<[ sessionIdEnvironmentVariable := QString.number sessionId ]> sessionEnvironment,
     emit (OpenSession arguments sessionId) s)
  else (sessionEnvironment, s).

(** Slot [startServer], lines 72-109. *)
Definition startServer (w : World) (login1SessionId : string)
    (sessionObjectPath : QDBusObjectPath) (s : LinuxServiceCore) : LinuxServiceCore :=
  let sessionPath := path sessionObjectPath in
  let '(sessionDisplay, s1) := getSessionDisplay w sessionPath s in
  if QString.isEmpty sessionDisplay then s1
  else
    let '(sessionLeader, s2) := getSessionLeaderPid w sessionPath s1 in
    let '(sessionEnvironment, s3) := readSessionEnvironment w sessionLeader s2 in
    if negb (env_isEmpty sessionEnvironment) then
      let '(seat, s4) := getSessionSeat w sessionPath s3 in
      let s5 := emit (LogInfo ["Starting server for new session"; sessionPath;
                               "with display"; sessionDisplay;
                               "at seat"; LoginDBusSessionSeat.path seat]) s4 in
      let '(sessionEnvironment', s6) :=
        addSessionId w sessionPath sessionDisplay (LoginDBusSessionSeat.path seat)
                     sessionEnvironment s5 in
      let '(process, s7) := newProcess sessionEnvironment' serverFilePath s6 in
      setServerProcesses (QMap.assign sessionPath process (m_serverProcesses s7)) s7
    else s3.

(** [stopServer( const QString& sessionPath )], lines 127-141.  Reading
    [m_serverProcesses[sessionPath]] for a missing key yields a null
    pointer, which [terminate] then dereferences. *)
Definition stopServerPath (sessionPath : string) (s : LinuxServiceCore)
  : Outcome LinuxServiceCore :=
  let s1 := emit (LogInfo ["Stopping server for removed session"; sessionPath]) s in
  match QMap.find sessionPath (m_serverProcesses s1) with
  | None => Failed NullPointer
  | Some process =>
      match children s1 !! process with
      | None => Failed Dangling
      | Some obj =>
          let s2 := emit (ProcessTerminate process) s1 in
          let s3 :=
            if m_multiSession s2 then
              emit (CloseSession
                      (QString.toInt
                         (env_value (processEnvironment obj)
                                    sessionIdEnvironmentVariable))) s2
            else s2 in
          let s4 := deleteProcess process s3 in
          Done (setServerProcesses (QMap.remove sessionPath (m_serverProcesses s4)) s4)
      end
  end.

(** Slot [stopServer], lines 113-123. *)
Definition stopServer (login1SessionId : string)
    (sessionObjectPath : QDBusObjectPath) (s : LinuxServiceCore)
  : Outcome LinuxServiceCore :=
  let sessionPath := path sessionObjectPath in
  if QMap.contains sessionPath (m_serverProcesses s) then stopServerPath sessionPath s
  else Done s.

(** [stopAllServers], lines 145-151; [fuel] bounds the iterations of the
    [while] loop. *)
Fixpoint stopAllServers (fuel : nat) (s : LinuxServiceCore) : Outcome LinuxServiceCore :=
  if QMap.isEmpty (m_serverProcesses s) then Done s
  else match fuel with
       | O => Failed OutOfFuel
       | S fuel' =>
           bind (stopServerPath (QMap.firstKey (m_serverProcesses s)) s)
                (stopAllServers fuel')
       end.

(** The destructor, lines 50-53. *)
Definition destructor (fuel : nat) (s : LinuxServiceCore) : Outcome LinuxServiceCore :=
  stopAllServers fuel s.

(** [listSessions], lines 155-184. *)
Definition listSessions (w : World) (s : LinuxServiceCore)
  : list string * LinuxServiceCore :=
  let s1 := emit DBusListSessions s in
  match ListSessions w with
  | Valid data => (List.map (fun session => path (LoginDBusSession.path session)) data, s1)
  | Error msg =>
      ([], emit (LogCritical ["QStringList LinuxServiceCore::listSessions()";
                              "Could not query sessions:"; msg]) s1)
  end.

(** The loop of lines 61-64. *)
Definition startServers (w : World) (sessions : list string) (s : LinuxServiceCore)
  : LinuxServiceCore :=
  fold_left (fun s' p => startServer w p (ObjectPath p) s') sessions s.

(** One signal delivered to its slot, in the world of that moment. *)
Definition deliver (s : LinuxServiceCore) (wn : World * Notification)
  : Outcome LinuxServiceCore :=
  match wn.2 with
  | SessionNew i p => Done (startServer wn.1 i p s)
  | SessionRemoved i p => stopServer i p s
  end.

Fixpoint deliverAll (pending : list (World * Notification)) (s : LinuxServiceCore)
  : Outcome LinuxServiceCore :=
  match pending with
  | [] => Done s
  | wn :: rest => bind (deliver s wn) (deliverAll rest)
  end.

(** [eventLoop.exec()]: the loop dispatches the signals that arrive; a
    finite run of it is given by the signals delivered so far. *)
Definition eventLoopExec (pending : list (World * Notification)) (s : LinuxServiceCore)
  : Outcome LinuxServiceCore :=
  deliverAll pending (emit EventLoopExec s).

(** [run], lines 57-68. *)
Definition run (w : World) (pending : list (World * Notification))
    (s : LinuxServiceCore) : Outcome LinuxServiceCore :=
  let '(sessions, s1) := listSessions w s in
  let s2 := startServers w sessions s1 in
  eventLoopExec pending s2.

End Service.

(** ** Reading traces *)

Definition isLaunch (e : Effect) : bool :=
  match e with ProcessStart _ _ _ => true | _ => false end.

Definition isQuery (e : Effect) : bool :=
  match e with
  | DBusGet _ _ | DBusListSessions | ProcScan _ | OpenSession _ _ => true
  | _ => false
  end.

Definition isLog (e : Effect) : bool :=
  match e with LogCritical _ | LogInfo _ => true | _ => false end.

(** The handles that received a termination request, in order. *)
Fixpoint terminations (t : list Effect) : list handle :=
  match t with
  | [] => []
  | ProcessTerminate h :: t' => h :: terminations t'
  | _ :: t' => terminations t'
  end.

(** ** What a session looks like in a given world

    The answers the getters compute do not depend on the object state;
    they are read off a blank object. *)

Definition blank : LinuxServiceCore := mkCore false [] ∅ 0%nat [].

Definition addTrace (t : list Effect) (s : LinuxServiceCore) : LinuxServiceCore :=
  mkCore (m_multiSession s) (m_serverProcesses s) (children s) (nextHandle s)
         (trace s ++ t).

Definition sessionProperty (w : World) (session property : string) : QVariant :=
  (getSessionProperty w session property blank).1.

Definition propertyEffects (w : World) (session property : string) : list Effect :=
  trace (getSessionProperty w session property blank).2.

Definition sessionDisplay (w : World) (session : string) : string :=
  (getSessionDisplay w session blank).1.

Definition sessionLeader (w : World) (session : string) : Z :=
  (getSessionLeaderPid w session blank).1.

Definition sessionSeat (w : World) (session : string) : LoginDBusSessionSeat.t :=
  (getSessionSeat w session blank).1.

Definition sessionEnvironment (w : World) (session : string) : QProcessEnvironment :=
  getSessionEnvironment (readproc w) (sessionLeader w session).

(** The arguments [startServer] passes to [openSession]. *)
Definition openArguments (w : World) (session : string) : list string :=
  [session; sessionDisplay w session; LoginDBusSessionSeat.path (sessionSeat w session)].

(** The path a notification is about. *)
Definition notificationPath (n : Notification) : string :=
  match n with
  | SessionNew _ p => path p
  | SessionRemoved _ p => path p
  end.

(** ** The class invariant

    The map is sorted, no two items share a process, every process of the
    map is a live child object, and handles not yet given out are unused. *)
Record wf (s : LinuxServiceCore) : Prop := {
  wf_sorted : QMap.sorted (m_serverProcesses s);
  wf_handles : List.NoDup (QMap.values (m_serverProcesses s));
  wf_live : forall h, In h (QMap.values (m_serverProcesses s)) ->
                      exists obj, children s !! h = Some obj;
  wf_fresh : forall h obj, children s !! h = Some obj -> (h < nextHandle s)%nat
}.

(** What [stopServer( sessionPath )] does to the outside for one item of
    the map, in a state [s]. *)
Definition teardown (sessionIdEnvironmentVariable : string) (s : LinuxServiceCore)
    (item : string * handle) : list Effect :=
  match children s !! item.2 with
  | Some obj =>
      [LogInfo ["Stopping server for removed session"; item.1];
       ProcessTerminate item.2]
      ++ (if m_multiSession s
          then [CloseSession (QString.toInt (env_value (processEnvironment obj)
                                                       sessionIdEnvironmentVariable))]
          else [])
      ++ [ProcessDelete item.2]
  | None => []
  end.

(** The environment handed to the worker of an eligible session. *)
Definition workerEnvironment (sessionIdEnvironmentVariable : string)
    (w : World) (session : string) (multiSession : bool) : QProcessEnvironment :=
  if multiSession then
    <[ sessionIdEnvironmentVariable :=
         QString.number (openSession w (openArguments w session)) ]>
      (sessionEnvironment w session)
  else sessionEnvironment w session.

Definition isTeardown (e : Effect) : bool :=
  match e with
  | ProcessTerminate _ | ProcessDelete _ | CloseSession _ => true
  | _ => false
  end.

(** Strings without white space and without a plus sign. *)
Definition plain (s : string) : Prop :=
  Forall (fun c => QString.isSpace c = false /\ c <> "+"%char) (list_ascii_of_string s).

Definition quiet (e : Effect) : bool := isQuery e || isLog e.

(** ** Sample systems

    Concrete worlds and states on which the statements below are run. *)

Definition sampleVariable : string := "VEYON_SESSION_ID".
Definition sampleServer : string := "/usr/bin/veyon-server".

Definition session1 : QDBusObjectPath := ObjectPath "/org/freedesktop/login1/session/_31".
Definition session2 : QDBusObjectPath := ObjectPath "/org/freedesktop/login1/session/_32".
Definition session3 : QDBusObjectPath := ObjectPath "/org/freedesktop/login1/session/_33".

Definition sampleTable : list proc_t :=
  [ {| tid := 100; ppid := 1;   environ := Some ["LANG=C"%string] |};
    {| tid := 101; ppid := 100; environ := Some ["HOME=/home/alice"%string;
                                                 "DISPLAY=:0"%string] |};
    {| tid := 102; ppid := 101; environ := None |} ].

(** Every session is graphical, led by pid 100, on seat0. *)
Definition graphicalWorld : World := {|
  ListSessions :=
    Valid [ {| LoginDBusSession.id := "1"; LoginDBusSession.uid := 1000;
               LoginDBusSession.name := "alice"; LoginDBusSession.seatId := "seat0";
               LoginDBusSession.path := session1 |} ];
  Get := fun _ property =>
    if String.eqb property "Display" then Valid (VString ":0")
    else if String.eqb property "Leader" then Valid (VUInt 100)
    else if String.eqb property "Seat"
         then Valid (VStruct "seat0" "/org/freedesktop/login1/seat/seat0")
    else Error "Unknown property";
  readproc := sampleTable;
  openSession := fun _ => 7
|}.

(** Text consoles only: the display of every session is empty. *)
Definition consoleWorld : World := {|
  ListSessions := Valid [];
  Get := fun _ property =>
    if String.eqb property "Display" then Valid (VString "")
    else Error "Unknown property";
  readproc := sampleTable;
  openSession := fun _ => 0
|}.

(** Graphical sessions whose leader has no child in the process table. *)
Definition bareWorld : World := {|
  ListSessions := Valid [];
  Get := fun _ property =>
    if String.eqb property "Display" then Valid (VString ":0")
    else if String.eqb property "Leader" then Valid (VUInt 4242)
    else Error "Unknown property";
  readproc := sampleTable;
  openSession := fun _ => 0
|}.

(** The login manager does not answer [ListSessions]. *)
Definition unreachableWorld : World := {|
  ListSessions := Error "The name org.freedesktop.login1 was not provided";
  Get := fun _ _ => Error "The name org.freedesktop.login1 was not provided";
  readproc := sampleTable;
  openSession := fun _ => 0
|}.

(** A multi-session service with three servers running. *)
Definition threeServers : LinuxServiceCore :=
  startServers sampleVariable sampleServer graphicalWorld
    [path session2; path session1; path session3] (constructor true).

(** A service with a server running for [session1]. *)
Definition oneServer : LinuxServiceCore :=
  startServer sampleVariable sampleServer graphicalWorld "1" session1 (constructor false).

(** ** Reading process tables *)

(** The pids that descend from the leader along the parent links of a
    table. *)
Inductive descends (leader : Z) (table : list proc_t) : Z -> Prop :=
| descends_child (p : proc_t) :
    In p table -> ppid p = leader -> descends leader table (tid p)
| descends_step (p : proc_t) :
    In p table -> descends leader table (ppid p) -> descends leader table (tid p).

(** The value of the last entry of a block that is named [name]. *)
Definition lastValue (name : string) (block : list string) : option string :=
  fold_left (fun found raw =>
               if String.eqb (parseEntry raw).1 name then Some (parseEntry raw).2
               else found)
            block None.

(** ** More about traces and worlds *)

Definition usesRegistry (e : Effect) : bool :=
  match e with
  | OpenSession _ _ | CloseSession _ => true
  | _ => false
  end.

(** The handles of the processes that were started, in order. *)
Fixpoint launches (t : list Effect) : list handle :=
  match t with
  | [] => []
  | ProcessStart h _ _ :: t' => h :: launches t'
  | _ :: t' => launches t'
  end.

(** The effects of a failed property read. *)
Definition failedRead (session property msg : string) : list Effect :=
  [DBusGet session property;
   LogCritical ["Could not query session property"; property; msg]].

(** [session2] is a text console, every other session is graphical. *)
Definition mixedWorld : World := {|
  ListSessions :=
    Valid [ {| LoginDBusSession.id := "2"; LoginDBusSession.uid := 0;
               LoginDBusSession.name := "root"; LoginDBusSession.seatId := "seat0";
               LoginDBusSession.path := session2 |};
            {| LoginDBusSession.id := "1"; LoginDBusSession.uid := 1000;
               LoginDBusSession.name := "alice"; LoginDBusSession.seatId := "seat0";
               LoginDBusSession.path := session1 |} ];
  Get := fun session property =>
    if String.eqb session (path session2) then
      if String.eqb property "Display" then Valid (VString "")
      else Error "Unknown property"
    else Get graphicalWorld session property;
  readproc := sampleTable;
  openSession := fun _ => 7
|}.

(** Terminations in a trace are sound when no process is asked twice to
    terminate, every terminated process was started before, is deleted
    and its handle is not given out again; and every live child object is
    a process that was started. *)
Definition traceSafe (s : LinuxServiceCore) : Prop :=
  List.NoDup (terminations (trace s))
  /\ (forall h, In h (terminations (trace s)) ->
        In h (launches (trace s)) /\ (h < nextHandle s)%nat /\ children s !! h = None)
  /\ (forall h obj, children s !! h = Some obj -> In h (launches (trace s))).

(** A single-session service that has not called the session registry. *)
Definition registryFree (s : LinuxServiceCore) : Prop :=
  m_multiSession s = false /\ Forall (fun e => usesRegistry e = false) (trace s).

(** A session for which [startServer] starts a server. *)
Definition eligible (w : World) (session : string) : Prop :=
  sessionDisplay w session <> EmptyString /\ sessionEnvironment w session <> ∅.

(** The effects of [startServer] up to the resolution of the environment,
    and, for an eligible session, up to the launch. *)
Definition resolveEffects (w : World) (session : string) : list Effect :=
  propertyEffects w session "Display"
  ++ propertyEffects w session "Leader"
  ++ [ProcScan (sessionLeader w session)].

Definition prepareEffects (w : World) (session : string) (multiSession : bool)
  : list Effect :=
  resolveEffects w session
  ++ propertyEffects w session "Seat"
  ++ [LogInfo ["Starting server for new session"; session;
               "with display"; sessionDisplay w session;
               "at seat"; LoginDBusSessionSeat.path (sessionSeat w session)]]
  ++ (if multiSession
      then [OpenSession (openArguments w session)
                        (openSession w (openArguments w session))]
      else []).

(** * Properties of the string operations *)

Section SplitJoin.

Variable sep : ascii.

Lemma split_nonempty (s : string) : QString.split sep s <> [].
Proof.
  destruct s as [|c s]; simpl; [discriminate|].
  destruct (Ascii.eqb c sep); [discriminate|].
  destruct (QString.split sep s); discriminate.
Qed.

(** A string without separator is a single piece. *)
Lemma split_no_sep (s : string) :
  QString.contains sep s = false -> QString.split sep s = [s].
Proof.
  induction s as [|c s IH]; simpl; [reflexivity|].
  intros H. apply orb_false_iff in H as [Hc Hs].
  rewrite Hc, (IH Hs). reflexivity.
Qed.

(** The first piece ends at the first separator. *)
Lemma split_at_first (k v : string) :
  QString.contains sep k = false ->
  QString.split sep (String.append k (String sep v)) = k :: QString.split sep v.
Proof.
  induction k as [|c k IH]; simpl.
  - intros _. rewrite Ascii.eqb_refl. reflexivity.
  - intros H. apply orb_false_iff in H as [Hc Hk].
    rewrite Hc, (IH Hk). reflexivity.
Qed.

(** Joining the pieces with the separator gives the string back. *)
Lemma join_split (s : string) : QString.join sep (QString.split sep s) = s.
Proof.
  induction s as [|c s IH]; simpl; [reflexivity|].
  destruct (Ascii.eqb_spec c sep) as [->|Hne].
  - pose proof (split_nonempty s) as Hs.
    destruct (QString.split sep s) as [|p ps]; [contradiction|].
    change (QString.join sep (EmptyString :: p :: ps))
      with (String sep (QString.join sep (p :: ps))).
    rewrite IH. reflexivity.
  - destruct (QString.split sep s) as [|p ps] eqn:E.
    + exfalso. exact (split_nonempty s E).
    + rewrite <- IH. destruct ps as [|q qs]; reflexivity.
Qed.

End SplitJoin.

Lemma parseEntry_no_eq (raw : string) :
  QString.contains eq_char raw = false -> parseEntry raw = (raw, EmptyString).
Proof.
  intros H. unfold parseEntry. rewrite (split_no_sep _ _ H). reflexivity.
Qed.

(** * Numbers and their decimal form *)

Lemma dropSpaces_plain (s : string) : plain s -> QString.dropSpaces s = s.
Proof.
  destruct s as [|c s]; [reflexivity|]. unfold plain. simpl.
  intros H. inversion H as [|? ? [Hc _] _]; subst. now rewrite Hc.
Qed.

Lemma plain_reverse (s : string) : plain s -> plain (QString.reverse s).
Proof.
  unfold plain, QString.reverse. rewrite list_ascii_of_string_of_list_ascii.
  rewrite !List.Forall_forall. intros H c Hc. apply H. now apply in_rev.
Qed.

Lemma reverse_reverse (s : string) : QString.reverse (QString.reverse s) = s.
Proof.
  unfold QString.reverse. rewrite list_ascii_of_string_of_list_ascii.
  rewrite rev_involutive. apply string_of_list_ascii_of_string.
Qed.

Lemma trimmed_plain (s : string) : plain s -> QString.trimmed s = s.
Proof.
  intros H. unfold QString.trimmed.
  rewrite (dropSpaces_plain s H).
  rewrite (dropSpaces_plain _ (plain_reverse s H)).
  apply reverse_reverse.
Qed.

Lemma plain_uint (d : uint) : plain (NilEmpty.string_of_uint d).
Proof.
  unfold plain. induction d; simpl; constructor; try assumption;
    (split; [reflexivity|discriminate]).
Qed.

Lemma plain_number (z : Z) : plain (QString.number z).
Proof.
  unfold QString.number, NilZero.string_of_int, NilZero.string_of_uint.
  assert (plain "0") as H0 by (repeat constructor; discriminate).
  destruct (Z.to_int z) as [d|d].
  - destruct d; try exact H0; apply plain_uint.
  - unfold plain. simpl. constructor; [split; [reflexivity|discriminate]|].
    destruct d; try exact H0; apply plain_uint.
Qed.

Lemma to_int_proper (z : Z) : Z.to_int z <> Pos Nil /\ Z.to_int z <> Neg Nil.
Proof.
  destruct z as [|p|p]; simpl; split; try discriminate;
    intros [= H]; exact (Unsigned.to_uint_nonnil p H).
Qed.

Lemma toNumber_number (z : Z) : QString.toNumber (QString.number z) = Some z.
Proof.
  unfold QString.toNumber. rewrite (trimmed_plain _ (plain_number z)).
  pose proof (plain_number z) as Hp.
  destruct (to_int_proper z) as [H1 H2].
  assert (option_map Z.of_int (NilZero.int_of_string (QString.number z)) = Some z) as E.
  { unfold QString.number. rewrite NilZero.isi by assumption.
    simpl. now rewrite DecimalZ.of_to. }
  destruct (QString.number z) as [|c r] eqn:En; [exact E|].
  destruct (Ascii.eqb_spec c "+"%char) as [->|Hc]; [|].
  - exfalso. unfold plain in Hp. simpl in Hp.
    inversion Hp as [|? ? [_ Hplus] _]. now apply Hplus.
  - destruct c as [[|] [|] [|] [|] [|] [|] [|] [|]]; try exact E.
    now contradiction Hc.
Qed.

(** An [int] printed by [QString::number] is read back by [toInt]. *)
Lemma toInt_number (z : Z) : is_int z -> QString.toInt (QString.number z) = z.
Proof.
  unfold is_int, INT_MIN, INT_MAX. intros [Hlo Hhi].
  unfold QString.toInt. rewrite toNumber_number.
  apply Z.leb_le in Hlo, Hhi. now rewrite Hlo, Hhi.
Qed.

(** * Properties of QMap *)

Lemma compare_refl (a : string) : String.compare a a = Eq.
Proof.
  pose proof (String.compare_antisym a a) as H.
  destruct (String.compare a a); simpl in H; congruence.
Qed.

Lemma ascii_compare_refl (a : ascii) : Ascii.compare a a = Eq.
Proof. unfold Ascii.compare. apply N.compare_refl. Qed.

Lemma ascii_compare_lt_trans (a b c : ascii) :
  Ascii.compare a b = Lt -> Ascii.compare b c = Lt -> Ascii.compare a c = Lt.
Proof.
  unfold Ascii.compare. rewrite !N.compare_lt_iff. apply N.lt_trans.
Qed.

Lemma compare_lt_trans (a b c : string) :
  String.compare a b = Lt -> String.compare b c = Lt -> String.compare a c = Lt.
Proof.
  revert b c. induction a as [|x a IH]; intros [|y b] [|z c]; simpl;
    try discriminate; try reflexivity.
  destruct (Ascii.compare x y) eqn:Exy; try discriminate;
    destruct (Ascii.compare y z) eqn:Eyz; try discriminate; intros H1 H2.
  - apply Ascii.compare_eq_iff in Exy, Eyz. subst.
    rewrite ascii_compare_refl. eauto.
  - apply Ascii.compare_eq_iff in Exy. subst. rewrite Eyz. reflexivity.
  - apply Ascii.compare_eq_iff in Eyz. subst. rewrite Exy. reflexivity.
  - rewrite (ascii_compare_lt_trans _ _ _ Exy Eyz). reflexivity.
Qed.

Lemma compare_lt_neq (a b : string) : String.compare a b = Lt -> a <> b.
Proof. intros H ->. rewrite compare_refl in H. discriminate. Qed.

Lemma compare_gt_neq (a b : string) : String.compare a b = Gt -> a <> b.
Proof. intros H ->. rewrite compare_refl in H. discriminate. Qed.

Section QMapFacts.

Context {V : Type}.
Implicit Types (m : QMap.t V) (k : string) (v : V).

Lemma below_not_in k m : QMap.below k m -> ~ In k (QMap.keys m).
Proof.
  unfold QMap.below, QMap.keys. intros Hb Hin.
  apply in_map_iff in Hin as [[k' v'] [Hk Hin]]. simpl in Hk. subst k'.
  rewrite List.Forall_forall in Hb. specialize (Hb _ Hin). simpl in Hb.
  rewrite compare_refl in Hb. discriminate.
Qed.

Lemma below_trans k k' m :
  String.compare k k' = Lt -> QMap.below k' m -> QMap.below k m.
Proof.
  unfold QMap.below. intros Hk Hb. eapply List.Forall_impl; [|exact Hb].
  intros [k2 v2]; simpl. now apply compare_lt_trans.
Qed.

Lemma sorted_NoDup m : QMap.sorted m -> List.NoDup (QMap.keys m).
Proof.
  induction m as [|[k v] m IH]; simpl; [constructor|].
  intros [Hb Hs]. constructor; [now apply below_not_in|auto].
Qed.

Lemma find_In m k v : QMap.find k m = Some v -> In (k, v) m.
Proof.
  induction m as [|[k' v'] m IH]; simpl; [discriminate|].
  destruct (String.eqb_spec k k') as [->|Hne].
  - intros [= ->]. now left.
  - intros H. right. auto.
Qed.

Lemma find_values m k v : QMap.find k m = Some v -> In v (QMap.values m).
Proof.
  intros H. apply find_In in H. unfold QMap.values.
  apply in_map_iff. exists (k, v). auto.
Qed.

Lemma find_not_in m k : ~ In k (QMap.keys m) -> QMap.find k m = None.
Proof.
  induction m as [|[k' v'] m IH]; simpl; [reflexivity|].
  intros H. destruct (String.eqb_spec k k') as [->|Hne].
  - exfalso. apply H. now left.
  - apply IH. intros Hin. apply H. now right.
Qed.

Lemma contains_find m k : QMap.contains k m = true <-> exists v, QMap.find k m = Some v.
Proof.
  induction m as [|[k' v'] m IH]; simpl.
  - split; [discriminate|intros [v H]; discriminate].
  - destruct (String.eqb k k'); simpl; [|exact IH].
    split; [intros _; eauto|reflexivity].
Qed.

Lemma contains_false_find m k : QMap.contains k m = false -> QMap.find k m = None.
Proof.
  intros H. destruct (QMap.find k m) as [v|] eqn:E; [|reflexivity].
  assert (QMap.contains k m = true) by (apply contains_find; eauto). congruence.
Qed.

(** Assignment. *)

Lemma find_assign_eq m k v : QMap.find k (QMap.assign k v m) = Some v.
Proof.
  induction m as [|[k' v'] m IH]; simpl.
  - now rewrite String.eqb_refl.
  - destruct (String.compare k k') eqn:E; simpl.
    + now rewrite String.eqb_refl.
    + now rewrite String.eqb_refl.
    + apply compare_gt_neq in E. apply String.eqb_neq in E. now rewrite E.
Qed.

Lemma find_assign_ne m k k' v :
  k <> k' -> QMap.find k' (QMap.assign k v m) = QMap.find k' m.
Proof.
  intros Hne. induction m as [|[k0 v0] m IH]; simpl.
  - assert (String.eqb k' k = false) as -> by (apply String.eqb_neq; congruence).
    reflexivity.
  - destruct (String.compare k k0) eqn:E; simpl.
    + apply String.compare_eq_iff in E. subst k0.
      assert (String.eqb k' k = false) as -> by (apply String.eqb_neq; congruence).
      reflexivity.
    + assert (String.eqb k' k = false) as -> by (apply String.eqb_neq; congruence).
      reflexivity.
    + now rewrite IH.
Qed.

Lemma below_assign m k k' v :
  String.compare k' k = Lt -> QMap.below k' m -> QMap.below k' (QMap.assign k v m).
Proof.
  intros Hk. unfold QMap.below.
  induction m as [|[k0 v0] m IH]; simpl; intros Hb.
  - constructor; [assumption|constructor].
  - inversion Hb as [|? ? H0 Hm]; subst.
    destruct (String.compare k k0); constructor; auto.
Qed.

Lemma sorted_assign m k v : QMap.sorted m -> QMap.sorted (QMap.assign k v m).
Proof.
  induction m as [|[k' v'] m IH]; simpl.
  - intros _. split; [constructor|exact I].
  - intros [Hb Hs]. destruct (String.compare k k') eqn:E; simpl.
    + apply String.compare_eq_iff in E. subst k'. auto.
    + split; [|auto]. constructor; [exact E|].
      eapply below_trans; eauto.
    + split; [|auto]. apply below_assign; [|assumption].
      rewrite String.compare_antisym, E. reflexivity.
Qed.

Lemma values_assign m k v x :
  In x (QMap.values (QMap.assign k v m)) -> x = v \/ In x (QMap.values m).
Proof.
  induction m as [|[k' v'] m IH]; simpl.
  - intros [H|[]]; auto.
  - destruct (String.compare k k'); simpl; intros [H|H]; auto.
    destruct (IH H); auto.
Qed.

Lemma NoDup_values_assign m k v :
  List.NoDup (QMap.values m) -> ~ In v (QMap.values m) ->
  List.NoDup (QMap.values (QMap.assign k v m)).
Proof.
  induction m as [|[k' v'] m IH]; simpl; intros Hnd Hv.
  - constructor; [intros []|constructor].
  - inversion Hnd as [|? ? Hv' Hm]; subst.
    destruct (String.compare k k'); simpl.
    + constructor; [tauto|assumption].
    + constructor; [tauto|assumption].
    + constructor.
      * intros Hin. apply values_assign in Hin as [->|Hin]; [|contradiction].
        apply Hv. now left.
      * apply IH; [assumption|tauto].
Qed.

(** The value that an assignment replaces is gone from the map. *)
Lemma assign_drops_old m k v old :
  QMap.sorted m -> List.NoDup (QMap.values m) ->
  QMap.find k m = Some old -> v <> old ->
  ~ In old (QMap.values (QMap.assign k v m)).
Proof.
  induction m as [|[k' v'] m IH]; simpl; [discriminate|].
  intros [Hb Hs] Hnd Hf Hne. inversion Hnd as [|? ? Hv' Hm]; subst.
  destruct (String.eqb_spec k k') as [->|Hkk].
  - injection Hf as ->. rewrite compare_refl. simpl.
    intros [H|H]; [congruence|contradiction].
  - destruct (String.compare k k') eqn:E.
    + apply String.compare_eq_iff in E. contradiction.
    + exfalso. rewrite find_not_in in Hf; [discriminate|].
      apply below_not_in. eapply below_trans; eauto.
    + simpl. intros [H|H].
      * subst v'. apply Hv'. eapply find_values; eauto.
      * revert H. apply IH; auto.
Qed.

Lemma keys_assign_present m k v old :
  QMap.sorted m -> QMap.find k m = Some old ->
  QMap.keys (QMap.assign k v m) = QMap.keys m.
Proof.
  induction m as [|[k' v'] m IH]; simpl; [discriminate|].
  intros [Hb Hs] Hf.
  destruct (String.eqb_spec k k') as [->|Hkk].
  - now rewrite compare_refl.
  - destruct (String.compare k k') eqn:E.
    + apply String.compare_eq_iff in E. contradiction.
    + exfalso. rewrite find_not_in in Hf; [discriminate|].
      apply below_not_in. eapply below_trans; eauto.
    + simpl. f_equal. now apply IH.
Qed.

(** Removal. *)

Lemma find_remove_eq m k : QMap.find k (QMap.remove k m) = None.
Proof.
  induction m as [|[k' v'] m IH]; simpl; [reflexivity|].
  destruct (String.eqb k k') eqn:E; simpl; [assumption|].
  now rewrite E.
Qed.

Lemma find_remove_ne m k k' :
  k <> k' -> QMap.find k' (QMap.remove k m) = QMap.find k' m.
Proof.
  intros Hne. induction m as [|[k0 v0] m IH]; simpl; [reflexivity|].
  destruct (String.eqb_spec k k0) as [->|Hk]; simpl.
  - assert (String.eqb k' k0 = false) as -> by (apply String.eqb_neq; congruence).
    assumption.
  - now rewrite IH.
Qed.

Lemma In_remove m k x : In x (QMap.remove k m) -> In x m.
Proof.
  induction m as [|[k' v'] m IH]; simpl; [tauto|].
  destruct (String.eqb k k'); simpl; intuition.
Qed.

Lemma values_remove m k x :
  In x (QMap.values (QMap.remove k m)) -> In x (QMap.values m).
Proof.
  unfold QMap.values. rewrite !in_map_iff.
  intros [kv [H1 H2]]. exists kv. split; [assumption|]. eapply In_remove; eauto.
Qed.

Lemma below_remove m k k' : QMap.below k' m -> QMap.below k' (QMap.remove k m).
Proof.
  unfold QMap.below. rewrite !List.Forall_forall. intros H x Hx.
  apply H. eapply In_remove; eauto.
Qed.

Lemma sorted_remove m k : QMap.sorted m -> QMap.sorted (QMap.remove k m).
Proof.
  induction m as [|[k' v'] m IH]; simpl; [tauto|].
  intros [Hb Hs]. destruct (String.eqb k k'); simpl; [auto|].
  split; [now apply below_remove|auto].
Qed.

Lemma NoDup_values_remove m k :
  List.NoDup (QMap.values m) -> List.NoDup (QMap.values (QMap.remove k m)).
Proof.
  induction m as [|[k' v'] m IH]; simpl; [tauto|].
  intros Hnd. inversion Hnd as [|? ? Hv' Hm]; subst.
  destruct (String.eqb k k'); simpl; [auto|].
  constructor; [|auto]. intros Hin. apply Hv'. eapply values_remove; eauto.
Qed.

Lemma remove_not_in m k : ~ In k (QMap.keys m) -> QMap.remove k m = m.
Proof.
  induction m as [|[k' v'] m IH]; simpl; [reflexivity|].
  intros H. destruct (String.eqb_spec k k') as [->|Hne].
  - exfalso. apply H. now left.
  - f_equal. apply IH. intros Hin. apply H. now right.
Qed.

(** In a sorted map, removing the first key removes the first item. *)
Lemma remove_first k v m :
  QMap.sorted ((k, v) :: m) -> QMap.remove k ((k, v) :: m) = m.
Proof.
  simpl. intros [Hb _]. rewrite String.eqb_refl.
  apply remove_not_in. now apply below_not_in.
Qed.

(** Two keys of the same value are the same key. *)
Lemma find_inj m k k' v :
  List.NoDup (QMap.values m) ->
  QMap.find k m = Some v -> QMap.find k' m = Some v -> k = k'.
Proof.
  induction m as [|[k0 v0] m IH]; simpl; [discriminate|].
  intros Hnd. inversion Hnd as [|? ? Hv' Hm]; subst.
  destruct (String.eqb_spec k k0) as [->|Hk], (String.eqb_spec k' k0) as [->|Hk'];
    try reflexivity.
  - intros [= ->] H. exfalso. apply Hv'. eapply find_values; eauto.
  - intros H [= ->]. exfalso. apply Hv'. eapply find_values; eauto.
  - auto.
Qed.

Lemma In_remove_key m k k' v : In (k', v) (QMap.remove k m) -> k' <> k.
Proof.
  induction m as [|[k0 v0] m IH]; simpl; [tauto|].
  destruct (String.eqb_spec k k0) as [->|Hne]; simpl; [assumption|].
  intros [H|H]; [injection H as <- <-; congruence|auto].
Qed.

Lemma In_values_inj m k k' v :
  List.NoDup (QMap.values m) -> In (k, v) m -> In (k', v) m -> k = k'.
Proof.
  induction m as [|[k0 v0] m IH]; simpl; [tauto|].
  intros Hnd. inversion Hnd as [|? ? Hv' Hm]; subst.
  assert (forall x, In (x, v0) m -> False) as Hno.
  { intros x Hx. apply Hv'. unfold QMap.values. apply in_map_iff.
    exists (x, v0). auto. }
  intros [H1|H1] [H2|H2].
  - congruence.
  - injection H1 as <- <-. exfalso. eauto.
  - injection H2 as <- <-. exfalso. eauto.
  - auto.
Qed.

(** The process of a removed key is not the process of another key. *)
Lemma values_remove_ne m k v x :
  List.NoDup (QMap.values m) -> QMap.find k m = Some v ->
  In x (QMap.values (QMap.remove k m)) -> x <> v.
Proof.
  intros Hnd Hf Hin ->. unfold QMap.values in Hin.
  apply in_map_iff in Hin as [[k' v'] [Hv Hin]]. simpl in Hv. subst v'.
  pose proof (In_remove_key _ _ _ _ Hin) as Hne.
  apply In_remove in Hin. apply find_In in Hf.
  apply Hne. eapply In_values_inj; eauto.
Qed.

Lemma count_le_1 m k : List.NoDup (QMap.keys m) -> (QMap.count k m <= 1)%nat.
Proof.
  unfold QMap.count.
  induction m as [|[k' v'] m IH]; simpl; [lia|].
  intros Hnd. inversion Hnd as [|? ? Hk' Hm]; subst.
  destruct (String.eqb_spec k k') as [->|Hne]; simpl; [|auto].
  rewrite (proj2 (List.length_zero_iff_nil _)); [lia|].
  destruct (List.filter _ m) as [|[k1 v1] l] eqn:E; [reflexivity|].
  exfalso. assert (In (k1, v1) (List.filter (fun kv => String.eqb k' (fst kv)) m)) as Hin
    by (rewrite E; now left).
  apply filter_In in Hin as [Hin Heq]. simpl in Heq.
  apply String.eqb_eq in Heq. subst k1.
  apply Hk'. unfold QMap.keys. apply in_map_iff. exists (k', v1). auto.
Qed.

End QMapFacts.

(** An entry that holds ['='] splits at its first occurrence. *)
Lemma first_eq_decompose (sep : ascii) (raw : string) :
  QString.contains sep raw = true ->
  exists k v, raw = String.append k (String sep v) /\ QString.contains sep k = false.
Proof.
  induction raw as [|c raw IH]; simpl; [discriminate|].
  destruct (Ascii.eqb_spec c sep) as [->|Hne]; simpl.
  - intros _. exists EmptyString, raw. split; reflexivity.
  - intros H. destruct (IH H) as [k [v [-> Hk]]].
    exists (String c k), v. split; [reflexivity|]. simpl.
    apply Ascii.eqb_neq in Hne. now rewrite Hne.
Qed.

(** * Properties of the environment scan *)

Lemma selected_iff (leader : Z) (ppids : list Z) (p : proc_t) :
  selected leader ppids p = true <->
  (ppid p = leader \/ In (ppid p) ppids) /\ environ p <> None.
Proof.
  unfold selected, ppids_contains.
  rewrite andb_true_iff, orb_true_iff, Z.eqb_eq, existsb_exists.
  split.
  - intros [[H|[x [Hx Hxp]]] He].
    + split; [now left|]. destruct (environ p); [discriminate|discriminate].
    + apply Z.eqb_eq in Hxp. subst x.
      split; [now right|]. destruct (environ p); discriminate.
  - intros [[H|H] He].
    + split; [now left|]. destruct (environ p); [reflexivity|contradiction].
    + split; [right; exists (ppid p); split; [assumption|apply Z.eqb_refl]|].
      destruct (environ p); [reflexivity|contradiction].
Qed.

Lemma scan_app (leader : Z) (t1 t2 : list proc_t) st :
  scan leader (t1 ++ t2) st = scan leader t2 (scan leader t1 st).
Proof. unfold scan. apply fold_left_app. Qed.

Lemma scan_snoc (leader : Z) (t : list proc_t) (p : proc_t) st :
  scan leader (t ++ [p]) st = scanStep leader (scan leader t st) p.
Proof. rewrite scan_app. reflexivity. Qed.

(** C5. Every raw entry is cut at its first ['=']: the name is the text
    before it and the value all the text after it, later ['='] included. *)
Theorem parseEntry_first_eq (k v : string) :
  QString.contains eq_char k = false ->
  parseEntry (String.append k (String eq_char v)) = (k, v).
Proof.
  intros Hk. unfold parseEntry.
  rewrite (split_at_first _ k v Hk). simpl.
  rewrite join_split. reflexivity.
Qed.

Lemma parseEntry_first_eq_witness :
  QString.contains eq_char "FOO" = false /\
  parseEntry "FOO=bar=baz" = ("FOO", "bar=baz")%string.
Proof.
  split; [reflexivity|].
  apply (parseEntry_first_eq "FOO" "bar=baz"). reflexivity.
Defined.

Lemma scan_take_S (leader : Z) (table : list proc_t) (n : nat) (p : proc_t) :
  table !! n = Some p ->
  scan leader (take (S n) table) (∅, [])
  = scanStep leader (scan leader (take n table) (∅, [])) p.
Proof.
  intros H. rewrite (take_S_r _ _ _ H). apply scan_snoc.
Qed.

(** C4. The resolution is one forward pass over the table.  In the merge
    scenario (pid 10 child of the leader, pid 11 child of pid 10, pid 12
    child of pid 999, which is not the leader) the result is exactly
    [{A:1, B:2}].  In any table, the process at position [n] is merged, and
    its own pid appended to the root set, when its parent is the leader or
    in the root set built from the [n] processes before it and its
    environment block is not null; otherwise it changes nothing. *)
Theorem getSessionEnvironment_merge (P : Z) :
  P <> 999 ->
  getSessionEnvironment (mergeScenario P) P
  = {[ "A"%string := "1"%string; "B"%string := "2"%string ]}
  /\ (forall leader table n p,
        table !! n = Some p ->
        let before := scan leader (take n table) (∅, []) in
        let after := scan leader (take (S n) table) (∅, []) in
        ((ppid p = leader \/ In (ppid p) before.2) /\ environ p <> None ->
         after = (insertEntries before.1 (default [] (environ p)),
                  before.2 ++ [tid p]))
        /\ (~ ((ppid p = leader \/ In (ppid p) before.2) /\ environ p <> None) ->
            after = before))
  /\ (forall leader table,
        getSessionEnvironment table leader
        = (scan leader (take (length table) table) (∅, [])).1).
Proof.
  intros HP. split; [|split].
  - unfold getSessionEnvironment, mergeScenario, scan. cbn [fold_left].
    unfold scanStep at 3. unfold selected. cbn [ppid environ tid].
    rewrite Z.eqb_refl. cbn [orb andb default app].
    unfold scanStep at 2. unfold selected. cbn [ppid environ tid].
    replace (ppids_contains [10] 10) with true by reflexivity.
    rewrite orb_true_r. cbn [andb default app].
    unfold scanStep. unfold selected. cbn [ppid environ tid].
    assert (Z.eqb 999 P = false) as -> by (apply Z.eqb_neq; congruence).
    replace (ppids_contains [10; 11] 999) with false by reflexivity.
    cbn [orb andb fst]. vm_compute. reflexivity.
  - intros leader table n p Hn before after. subst before after.
    rewrite (scan_take_S _ _ _ _ Hn).
    destruct (scan leader (take n table) (∅, [])) as [env ppids]. simpl.
    pose proof (selected_iff leader ppids p) as Hsel.
    destruct (selected leader ppids p).
    + split; [reflexivity|]. intros Hno. exfalso. apply Hno. now apply Hsel.
    + split; [|reflexivity]. intros Hyes. apply Hsel in Hyes. discriminate.
  - intros leader table. now rewrite firstn_all.
Qed.

Lemma getSessionEnvironment_merge_witness :
  1 <> 999 /\
  getSessionEnvironment (mergeScenario 1) 1
  = {[ "A"%string := "1"%string; "B"%string := "2"%string ]}.
Proof.
  split; [lia|]. apply (getSessionEnvironment_merge 1). lia.
Defined.

(** The side condition of the scenario is needed: were 999 the leader,
    pid 12 would be one of its children and be merged as well. *)
Lemma getSessionEnvironment_merge_leader_999 :
  getSessionEnvironment (mergeScenario 999) 999
  = {[ "A"%string := "1"%string; "B"%string := "2"%string; "C"%string := "3"%string ]}.
Proof. vm_compute. reflexivity. Qed.

(** * Properties of the service *)

Ltac trace_norm := rewrite <- ?app_assoc; simpl.

Lemma flat_map_ext_In {A B : Type} (f g : A -> list B) (l : list A) :
  (forall a, In a l -> f a = g a) -> flat_map f l = flat_map g l.
Proof.
  induction l as [|a l IH]; simpl; intros H; [reflexivity|].
  rewrite (H a (or_introl eq_refl)), IH; [reflexivity|].
  intros b Hb. apply H. now right.
Qed.

Lemma addTrace_nil s : addTrace [] s = s.
Proof. destruct s. unfold addTrace. simpl. now rewrite app_nil_r. Qed.

Lemma addTrace_app t1 t2 s : addTrace t2 (addTrace t1 s) = addTrace (t1 ++ t2) s.
Proof. unfold addTrace. simpl. now rewrite app_assoc. Qed.

Lemma emit_addTrace e s : emit e s = addTrace [e] s.
Proof. reflexivity. Qed.

Lemma getSessionProperty_eq w session property s :
  getSessionProperty w session property s
  = (sessionProperty w session property,
     addTrace (propertyEffects w session property) s).
Proof.
  unfold sessionProperty, propertyEffects, getSessionProperty.
  destruct (Get w session property); simpl; [reflexivity|].
  unfold emit, addTrace. simpl. now trace_norm.
Qed.

Lemma propertyEffects_quiet w session property :
  Forall (fun e => quiet e = true) (propertyEffects w session property).
Proof.
  unfold propertyEffects, getSessionProperty.
  destruct (Get w session property); simpl; repeat constructor.
Qed.

Lemma getSessionDisplay_eq w session s :
  getSessionDisplay w session s
  = (sessionDisplay w session, addTrace (propertyEffects w session "Display") s).
Proof.
  unfold sessionDisplay, getSessionDisplay.
  rewrite !getSessionProperty_eq. reflexivity.
Qed.

Lemma getSessionLeaderPid_eq w session s :
  getSessionLeaderPid w session s
  = (sessionLeader w session, addTrace (propertyEffects w session "Leader") s).
Proof.
  unfold sessionLeader, getSessionLeaderPid.
  rewrite !getSessionProperty_eq.
  destruct (Variant.isNull _); reflexivity.
Qed.

Lemma getSessionSeat_eq w session s :
  getSessionSeat w session s
  = (sessionSeat w session, addTrace (propertyEffects w session "Seat") s).
Proof.
  unfold sessionSeat, getSessionSeat.
  rewrite !getSessionProperty_eq.
  destruct (sessionProperty w session "Seat"); reflexivity.
Qed.

Lemma isEmpty_true (x : string) : QString.isEmpty x = true <-> x = EmptyString.
Proof. destruct x; simpl; split; congruence. Qed.

Lemma env_isEmpty_true (e : QProcessEnvironment) : env_isEmpty e = true <-> e = ∅.
Proof. unfold env_isEmpty. apply bool_decide_eq_true. Qed.

Lemma stopServer_eq var i p s :
  stopServer var i p s
  = if QMap.contains (path p) (m_serverProcesses s)
    then stopServerPath var (path p) s else Done s.
Proof. reflexivity. Qed.

Lemma workerEnvironment_multi var w session :
  workerEnvironment var w session true
  = <[ var := QString.number (openSession w (openArguments w session)) ]>
      (sessionEnvironment w session).
Proof. reflexivity. Qed.

Section ServiceFacts.

Variable sessionIdEnvironmentVariable : string.
Variable serverFilePath : string.

Local Abbreviation startServer := (startServer sessionIdEnvironmentVariable serverFilePath).
Local Abbreviation stopServer := (stopServer sessionIdEnvironmentVariable).
Local Abbreviation stopServerPath := (stopServerPath sessionIdEnvironmentVariable).
Local Abbreviation stopAllServers := (stopAllServers sessionIdEnvironmentVariable).
Local Abbreviation startServers :=
  (startServers sessionIdEnvironmentVariable serverFilePath).
Local Abbreviation deliver := (deliver sessionIdEnvironmentVariable serverFilePath).
Local Abbreviation deliverAll := (deliverAll sessionIdEnvironmentVariable serverFilePath).
Local Abbreviation run := (run sessionIdEnvironmentVariable serverFilePath).

Local Abbreviation workerEnvironment :=
  (workerEnvironment sessionIdEnvironmentVariable).

(** An ineligible session: only queries and log lines happen. *)
Lemma startServer_skip w i p s :
  sessionDisplay w (path p) = EmptyString \/ sessionEnvironment w (path p) = ∅ ->
  exists t, startServer w i p s = addTrace t s /\ Forall (fun e => quiet e = true) t.
Proof.
  intros H. unfold startServer.
  rewrite getSessionDisplay_eq.
  destruct (QString.isEmpty (sessionDisplay w (path p))) eqn:Ed.
  - eexists. split; [reflexivity|]. apply propertyEffects_quiet.
  - rewrite getSessionLeaderPid_eq. unfold readSessionEnvironment.
    destruct H as [H|H]; [apply isEmpty_true in H; congruence|].
    fold (sessionEnvironment w (path p)). rewrite H.
    simpl. rewrite emit_addTrace, !addTrace_app.
    eexists. split; [reflexivity|].
    rewrite !Forall_app. repeat split; try apply propertyEffects_quiet.
    repeat constructor.
Qed.

(** An eligible session: queries and log lines, then one launch, and the
    new process takes the place of the session path in the map. *)
Lemma startServer_launch w i p s :
  sessionDisplay w (path p) <> EmptyString ->
  sessionEnvironment w (path p) <> ∅ ->
  exists t,
    startServer w i p s
    = mkCore (m_multiSession s)
             (QMap.assign (path p) (nextHandle s) (m_serverProcesses s))
             (<[ nextHandle s :=
                   {| processEnvironment := workerEnvironment w (path p) (m_multiSession s);
                      program := serverFilePath |} ]> (children s))
             (S (nextHandle s))
             (trace s ++ t ++
                [ProcessStart (nextHandle s) serverFilePath
                              (workerEnvironment w (path p) (m_multiSession s))])
    /\ Forall (fun e => quiet e = true) t
    /\ (m_multiSession s = true ->
        In (OpenSession (openArguments w (path p))
                        (openSession w (openArguments w (path p)))) t).
Proof.
  intros Hd He. unfold startServer.
  rewrite getSessionDisplay_eq.
  destruct (QString.isEmpty (sessionDisplay w (path p))) eqn:Ed;
    [apply isEmpty_true in Ed; contradiction|].
  rewrite getSessionLeaderPid_eq. unfold readSessionEnvironment.
  fold (sessionEnvironment w (path p)).
  destruct (env_isEmpty (sessionEnvironment w (path p))) eqn:Ee;
    [apply env_isEmpty_true in Ee; contradiction|].
  simpl negb. cbv iota. rewrite getSessionSeat_eq.
  unfold addSessionId, workerEnvironment.
  fold (openArguments w (path p)).
  rewrite !emit_addTrace, !addTrace_app.
  change (m_multiSession (addTrace ?t s)) with (m_multiSession s).
  destruct (m_multiSession s) eqn:Em;
    match goal with |- context [addTrace ?T s] => exists T end;
    (split; [unfold newProcess, setServerProcesses, addTrace; simpl;
             rewrite Em; f_equal; now rewrite <- app_assoc|]);
    (split; [rewrite !Forall_app; repeat split;
             try apply propertyEffects_quiet; repeat constructor|]).
  - intros _. apply in_app_iff. right. now left.
  - discriminate.
Qed.

Lemma stopServerPath_eq sessionPath h obj s :
  QMap.find sessionPath (m_serverProcesses s) = Some h ->
  children s !! h = Some obj ->
  stopServerPath sessionPath s
  = Done (mkCore (m_multiSession s)
                 (QMap.remove sessionPath (m_serverProcesses s))
                 (delete h (children s))
                 (nextHandle s)
                 (trace s ++ teardown sessionIdEnvironmentVariable s (sessionPath, h))).
Proof.
  intros Hf Hc. unfold stopServerPath, teardown. simpl.
  rewrite Hf, Hc. unfold deleteProcess, setServerProcesses, emit. simpl.
  destruct (m_multiSession s); simpl; do 2 f_equal; now trace_norm.
Qed.

(** ** The invariant is established and kept *)

Lemma wf_constructor b : wf (constructor b).
Proof.
  constructor; simpl.
  - exact I.
  - constructor.
  - intros h [].
  - intros h obj H. rewrite lookup_empty in H. discriminate.
Qed.

Lemma wf_addTrace t s : wf s -> wf (addTrace t s).
Proof. intros [H1 H2 H3 H4]. constructor; simpl; assumption. Qed.

Lemma wf_values_lt s h :
  wf s -> In h (QMap.values (m_serverProcesses s)) -> (h < nextHandle s)%nat.
Proof.
  intros Hwf Hin. destruct (wf_live _ Hwf _ Hin) as [obj Hobj].
  eapply wf_fresh; eauto.
Qed.

Lemma wf_startServer w i p s : wf s -> wf (startServer w i p s).
Proof.
  intros Hwf.
  destruct (decide (sessionDisplay w (path p) = EmptyString)) as [Hd|Hd];
    [|destruct (decide (sessionEnvironment w (path p) = ∅)) as [He|He]].
  - destruct (startServer_skip w i p s (or_introl Hd)) as [t [-> _]].
    now apply wf_addTrace.
  - destruct (startServer_skip w i p s (or_intror He)) as [t [-> _]].
    now apply wf_addTrace.
  - destruct (startServer_launch w i p s Hd He) as [t [-> _]].
    assert (~ In (nextHandle s) (QMap.values (m_serverProcesses s))) as Hnew.
    { intros Hin. apply (wf_values_lt _ _ Hwf) in Hin. lia. }
    constructor; simpl.
    + apply sorted_assign, Hwf.
    + apply NoDup_values_assign; [apply Hwf|assumption].
    + intros h Hin. apply values_assign in Hin as [->|Hin].
      * rewrite lookup_insert_eq. eauto.
      * destruct (wf_live _ Hwf _ Hin) as [obj Hobj].
        exists obj. rewrite lookup_insert_ne; [assumption|].
        intros <-. contradiction.
    + intros h obj Hl. destruct (decide (nextHandle s = h)) as [<-|Hne]; [lia|].
      rewrite lookup_insert_ne in Hl by assumption.
      apply (wf_fresh _ Hwf) in Hl. lia.
Qed.

Lemma wf_stopServerPath sessionPath h s :
  wf s -> QMap.find sessionPath (m_serverProcesses s) = Some h ->
  exists s', stopServerPath sessionPath s = Done s' /\ wf s'.
Proof.
  intros Hwf Hf.
  destruct (wf_live _ Hwf h (find_values _ _ _ Hf)) as [obj Hobj].
  rewrite (stopServerPath_eq _ _ _ _ Hf Hobj).
  eexists. split; [reflexivity|].
  constructor; simpl.
  - apply sorted_remove, Hwf.
  - apply NoDup_values_remove, Hwf.
  - intros h' Hin.
    pose proof (values_remove_ne _ _ _ _ (wf_handles _ Hwf) Hf Hin) as Hne.
    apply values_remove in Hin.
    destruct (wf_live _ Hwf _ Hin) as [obj' Hobj'].
    exists obj'. rewrite lookup_delete_ne; [assumption|congruence].
  - intros h' obj' Hl. destruct (decide (h = h')) as [<-|Hne].
    + rewrite lookup_delete_eq in Hl. discriminate.
    + rewrite lookup_delete_ne in Hl by assumption.
      eapply wf_fresh; eauto.
Qed.

Lemma wf_stopServer i p s :
  wf s -> exists s', stopServer i p s = Done s' /\ wf s'.
Proof.
  intros Hwf. unfold stopServer.
  destruct (QMap.contains (path p) (m_serverProcesses s)) eqn:E.
  - apply contains_find in E as [h Hf]. eapply wf_stopServerPath; eauto.
  - eauto.
Qed.

Lemma wf_deliver s wn : wf s -> exists s', deliver s wn = Done s' /\ wf s'.
Proof.
  intros Hwf. unfold deliver. destruct wn as [w [i p|i p]]; simpl.
  - eexists. split; [reflexivity|]. now apply wf_startServer.
  - now apply wf_stopServer.
Qed.

Lemma wf_deliverAll pending s :
  wf s -> exists s', deliverAll pending s = Done s' /\ wf s'.
Proof.
  revert s. induction pending as [|wn rest IH]; intros s Hwf; simpl.
  - eauto.
  - destruct (wf_deliver s wn Hwf) as [s1 [-> Hwf1]]. simpl. auto.
Qed.

Lemma wf_startServers w sessions s :
  wf s -> wf (startServers w sessions s).
Proof.
  unfold startServers. revert s.
  induction sessions as [|x l IH]; intros s Hwf; simpl; [assumption|].
  apply IH. now apply wf_startServer.
Qed.

Lemma quiet_not_launch e : quiet e = true -> isLaunch e = false.
Proof. destruct e; unfold quiet; simpl; intros; congruence. Qed.

Lemma quiet_not_teardown e : quiet e = true -> isTeardown e = false.
Proof. destruct e; unfold quiet; simpl; intros; congruence. Qed.

Lemma terminations_app t1 t2 :
  terminations (t1 ++ t2) = terminations t1 ++ terminations t2.
Proof.
  induction t1 as [|e t1 IH]; simpl; [reflexivity|].
  destruct e; simpl; rewrite ?IH; reflexivity.
Qed.

Lemma terminations_quiet t :
  Forall (fun e => quiet e = true) t -> terminations t = [].
Proof.
  induction 1 as [|e t He _ IH]; simpl; [reflexivity|].
  destruct e; unfold quiet in *; simpl in *; try assumption. discriminate.
Qed.

(** Every state that [run] reaches satisfies the invariant, and no call
    on the way dereferences a missing process. *)
Lemma run_wf w pending s :
  wf s -> exists s', run w pending s = Done s' /\ wf s'.
Proof.
  intros Hwf. unfold run, eventLoopExec.
  destruct (listSessions w s) as [sessions s1] eqn:E.
  assert (wf s1) as Hwf1.
  { unfold listSessions in E. destruct (ListSessions w); injection E as _ <-;
      rewrite ?emit_addTrace, ?addTrace_app; now apply wf_addTrace. }
  pose proof (wf_startServers w sessions s1 Hwf1) as Hwf2.
  apply (wf_addTrace [EventLoopExec]) in Hwf2.
  exact (wf_deliverAll pending _ Hwf2).
Qed.

(** ** Draining the map *)

Lemma teardown_frame s1 s item :
  m_multiSession s1 = m_multiSession s ->
  children s1 !! item.2 = children s !! item.2 ->
  teardown sessionIdEnvironmentVariable s1 item
  = teardown sessionIdEnvironmentVariable s item.
Proof. intros Hm Hc. unfold teardown. now rewrite Hm, Hc. Qed.

Lemma terminations_teardown s (m : QMap.t handle) :
  (forall h, In h (QMap.values m) -> exists obj, children s !! h = Some obj) ->
  terminations (flat_map (teardown sessionIdEnvironmentVariable s) m) = QMap.values m.
Proof.
  induction m as [|[k h] m IH]; simpl; intros Hlive; [reflexivity|].
  rewrite terminations_app, IH by (intros; apply Hlive; now right).
  destruct (Hlive h (or_introl eq_refl)) as [obj Hobj].
  unfold teardown. simpl. rewrite Hobj.
  destruct (m_multiSession s); reflexivity.
Qed.

Lemma stopAllServers_spec fuel : forall s,
  wf s -> (length (m_serverProcesses s) <= fuel)%nat ->
  exists s',
    stopAllServers fuel s = Done s'
    /\ m_serverProcesses s' = []
    /\ trace s' = trace s ++ flat_map (teardown sessionIdEnvironmentVariable s)
                                      (m_serverProcesses s)
    /\ (forall h, children s !! h = None -> children s' !! h = None)
    /\ (forall h, In h (QMap.values (m_serverProcesses s)) -> children s' !! h = None).
Proof.
  induction fuel as [|fuel IH]; intros s Hwf Hlen.
  - destruct (m_serverProcesses s) as [|kv m] eqn:Em; [|simpl in Hlen; lia].
    exists s. simpl. rewrite Em. simpl. rewrite app_nil_r.
    repeat split; auto. intros h [].
  - destruct (m_serverProcesses s) as [|[k h] m] eqn:Em.
    + exists s. simpl. rewrite Em. simpl. rewrite app_nil_r.
      repeat split; auto. intros h [].
    + assert (QMap.find k (m_serverProcesses s) = Some h) as Hf
        by (rewrite Em; simpl; now rewrite String.eqb_refl).
      destruct (wf_live _ Hwf h (find_values _ _ _ Hf)) as [obj Hobj].
      destruct (wf_stopServerPath _ _ _ Hwf Hf) as [s1 [Hs1 Hwf1]].
      pose proof Hs1 as Heq. rewrite (stopServerPath_eq _ _ _ _ Hf Hobj) in Heq.
      injection Heq as Heq.
      assert (m_serverProcesses s1 = m) as Hm1.
      { rewrite <- Heq. simpl. rewrite Em. apply remove_first.
        rewrite <- Em. apply Hwf. }
      assert (children s1 = delete h (children s)) as Hc1 by (now rewrite <- Heq).
      assert (m_multiSession s1 = m_multiSession s) as Hmu1 by (now rewrite <- Heq).
      assert (trace s1 = trace s ++ teardown sessionIdEnvironmentVariable s (k, h)) as Ht1
        by (now rewrite <- Heq).
      assert (List.NoDup (h :: QMap.values m)) as Hnd.
      { pose proof (wf_handles _ Hwf) as H. now rewrite Em in H. }
      apply NoDup_cons_iff in Hnd as [Hh Hndm].
      destruct (IH s1 Hwf1) as [s' [Hrun [Hempty [Htr [Hgone Hvals]]]]].
      { rewrite Hm1. simpl in Hlen. lia. }
      exists s'.
      change (stopAllServers (S fuel) s)
        with (if QMap.isEmpty (m_serverProcesses s) then Done s
              else bind (stopServerPath (QMap.firstKey (m_serverProcesses s)) s)
                        (stopAllServers fuel)).
      rewrite Em. cbn [QMap.isEmpty QMap.firstKey]. rewrite Hs1.
      split; [exact Hrun|]. split; [exact Hempty|]. split.
      * rewrite Htr, Ht1, Hm1, <- app_assoc. f_equal.
        cbn [flat_map]. f_equal.
        apply flat_map_ext_In. intros [k' h'] Hin.
        apply teardown_frame; [assumption|]. simpl.
        rewrite Hc1. apply lookup_delete_ne. intros <-. apply Hh.
        unfold QMap.values. apply in_map_iff. exists (k', h). auto.
      * split.
        -- intros h' Hn. apply Hgone. rewrite Hc1.
           destruct (decide (h = h')) as [<-|Hne];
             [apply lookup_delete_eq|now rewrite lookup_delete_ne].
        -- intros h' [<-|Hin].
           ++ apply Hgone. rewrite Hc1. apply lookup_delete_eq.
           ++ apply Hvals. now rewrite Hm1.
Qed.

(** ** What signals for other sessions leave alone *)

Lemma deliver_frame s wn sessionPath h obj :
  wf s ->
  QMap.find sessionPath (m_serverProcesses s) = Some h ->
  children s !! h = Some obj ->
  notificationPath wn.2 <> sessionPath ->
  exists s',
    deliver s wn = Done s' /\ wf s'
    /\ QMap.find sessionPath (m_serverProcesses s') = Some h
    /\ children s' !! h = Some obj
    /\ m_multiSession s' = m_multiSession s.
Proof.
  intros Hwf Hf Hc Hne. destruct wn as [w [i p|i p]]; unfold deliver; simpl in *.
  - exists (startServer w i p s). split; [reflexivity|].
    split; [now apply wf_startServer|].
    destruct (decide (sessionDisplay w (path p) = EmptyString)) as [Hd|Hd];
      [|destruct (decide (sessionEnvironment w (path p) = ∅)) as [He|He]].
    + destruct (startServer_skip w i p s (or_introl Hd)) as [t [-> _]]. auto.
    + destruct (startServer_skip w i p s (or_intror He)) as [t [-> _]]. auto.
    + destruct (startServer_launch w i p s Hd He) as [t [-> _]]. simpl.
      split; [now rewrite find_assign_ne|].
      split; [|reflexivity].
      rewrite lookup_insert_ne; [assumption|].
      apply (wf_fresh _ Hwf) in Hc. lia.
  - rewrite stopServer_eq.
    destruct (QMap.contains (path p) (m_serverProcesses s)) eqn:E.
    + apply contains_find in E as [h' Hf'].
      destruct (wf_live _ Hwf h' (find_values _ _ _ Hf')) as [obj' Hobj'].
      destruct (wf_stopServerPath _ _ _ Hwf Hf') as [s1 [Hs1 Hwf1]].
      exists s1. split; [exact Hs1|]. split; [exact Hwf1|].
      rewrite (stopServerPath_eq _ _ _ _ Hf' Hobj') in Hs1.
      injection Hs1 as <-. simpl.
      split; [now rewrite find_remove_ne|].
      split; [|reflexivity].
      rewrite lookup_delete_ne; [assumption|].
      intros <-. apply Hne.
      eapply find_inj; [apply Hwf|eassumption|eassumption].
    + exists s. auto.
Qed.

Lemma deliverAll_frame others : forall s sessionPath h obj,
  wf s ->
  QMap.find sessionPath (m_serverProcesses s) = Some h ->
  children s !! h = Some obj ->
  Forall (fun wn : World * Notification => notificationPath wn.2 <> sessionPath) others ->
  exists s',
    deliverAll others s = Done s' /\ wf s'
    /\ QMap.find sessionPath (m_serverProcesses s') = Some h
    /\ children s' !! h = Some obj
    /\ m_multiSession s' = m_multiSession s.
Proof.
  induction others as [|wn rest IH]; intros s sessionPath h obj Hwf Hf Hc Hall.
  - exists s. simpl. auto.
  - inversion Hall as [|? ? Hwn Hrest]; subst.
    destruct (deliver_frame s wn sessionPath h obj Hwf Hf Hc Hwn)
      as [s1 [Hd [Hwf1 [Hf1 [Hc1 Hm1]]]]].
    destruct (IH s1 sessionPath h obj Hwf1 Hf1 Hc1 Hrest)
      as [s2 [Hd2 [Hwf2 [Hf2 [Hc2 Hm2]]]]].
    exists s2. simpl. rewrite Hd. simpl.
    split; [assumption|]. split; [assumption|]. split; [assumption|].
    split; [assumption|congruence].
Qed.

(** * The claims *)

(** C2. A session whose [Display] property reads as the empty string is
    ignored: [startServer] returns right after that one property read,
    the map and the child processes are as before, and nothing but the
    read (and the log line of a failed read) has happened. *)
Theorem startServer_empty_display w i p s :
  (getSessionDisplay w (path p) s).1 = EmptyString ->
  startServer w i p s = (getSessionDisplay w (path p) s).2
  /\ m_serverProcesses (startServer w i p s) = m_serverProcesses s
  /\ children (startServer w i p s) = children s
  /\ exists logs,
       trace (startServer w i p s) = trace s ++ DBusGet (path p) "Display" :: logs
       /\ Forall (fun e => isLog e = true) logs.
Proof.
  intros Hd. unfold startServer.
  destruct (getSessionDisplay w (path p) s) as [d s1] eqn:E. simpl in Hd. subst d.
  simpl. split; [reflexivity|].
  unfold getSessionDisplay, getSessionProperty in E.
  destruct (Get w (path p) "Display"); simpl in E;
    assert (E' := f_equal snd E); simpl in E'; subst s1; simpl;
    (split; [reflexivity|]); (split; [reflexivity|]).
  - exists []. split; [reflexivity|constructor].
  - eexists [_]. split; [now trace_norm|repeat constructor].
Qed.

(** C3. A session whose resolved environment is empty is ignored: no
    item is put into the map, no process object is created, no worker
    is launched; the effects are queries and log lines only. *)
Theorem startServer_empty_environment w i p s :
  sessionEnvironment w (path p) = ∅ ->
  m_serverProcesses (startServer w i p s) = m_serverProcesses s
  /\ children (startServer w i p s) = children s
  /\ nextHandle (startServer w i p s) = nextHandle s
  /\ exists t,
       trace (startServer w i p s) = trace s ++ t
       /\ Forall (fun e => isLaunch e = false) t
       /\ Forall (fun e => quiet e = true) t.
Proof.
  intros He.
  destruct (startServer_skip w i p s (or_intror He)) as [t [-> Hq]].
  simpl. repeat split; try reflexivity.
  exists t. repeat split; [|assumption].
  eapply List.Forall_impl; [|exact Hq]. apply quiet_not_launch.
Qed.

(** C9. A session-removed signal for a path that has no item in the map
    changes nothing: the state after the slot is the state before it,
    trace included, so no termination request is made. *)
Theorem stopServer_unknown_session i p s :
  QMap.contains (path p) (m_serverProcesses s) = false ->
  stopServer i p s = Done s.
Proof. intros H. unfold stopServer. now rewrite H. Qed.

(** C10. A session-added signal for an eligible path that already has
    an item in the map: the item now holds a newly launched process, the
    keys of the map are as before, the process recorded before is in no
    item of the map any more but is still a child object, and no
    termination request, deletion or session close has been made. *)
Theorem startServer_replaces_entry w i p s old :
  wf s ->
  QMap.find (path p) (m_serverProcesses s) = Some old ->
  sessionDisplay w (path p) <> EmptyString ->
  sessionEnvironment w (path p) <> ∅ ->
  QMap.find (path p) (m_serverProcesses (startServer w i p s)) = Some (nextHandle s)
  /\ nextHandle s <> old
  /\ QMap.keys (m_serverProcesses (startServer w i p s)) = QMap.keys (m_serverProcesses s)
  /\ ~ In old (QMap.values (m_serverProcesses (startServer w i p s)))
  /\ children (startServer w i p s) !! old = children s !! old
  /\ children s !! old <> None
  /\ exists t,
       trace (startServer w i p s)
       = trace s ++ t ++ [ProcessStart (nextHandle s) serverFilePath
                            (workerEnvironment w (path p) (m_multiSession s))]
       /\ Forall (fun e => isTeardown e = false) t.
Proof.
  intros Hwf Hf Hd He.
  destruct (startServer_launch w i p s Hd He) as [t [-> [Hq _]]]. simpl.
  pose proof (find_values _ _ _ Hf) as Hin.
  pose proof (wf_values_lt _ _ Hwf Hin) as Hlt.
  assert (nextHandle s <> old) as Hne by lia.
  split; [apply find_assign_eq|].
  split; [assumption|].
  split; [eapply keys_assign_present; [apply Hwf|eassumption]|].
  split; [apply assign_drops_old; [apply Hwf|apply Hwf|assumption|assumption]|].
  split; [now apply lookup_insert_ne|].
  split.
  - destruct (wf_live _ Hwf _ Hin) as [obj ->]. discriminate.
  - exists t. split; [reflexivity|].
    eapply List.Forall_impl; [|exact Hq]. apply quiet_not_teardown.
Qed.

(** C8. The shutdown loop ends with the map empty.  From any state that
    satisfies the class invariant, with fuel for one iteration per item:
    every item of the map is torn down in map order, the effects being
    those of one [stopServer] per item, so each process receives its
    termination request exactly once, before its deletion, and none of
    these processes is a child object afterwards. *)
Theorem stopAllServers_drains fuel s :
  wf s -> (length (m_serverProcesses s) <= fuel)%nat ->
  exists s',
    stopAllServers fuel s = Done s'
    /\ m_serverProcesses s' = []
    /\ trace s' = trace s ++ flat_map (teardown sessionIdEnvironmentVariable s)
                                      (m_serverProcesses s)
    /\ terminations (flat_map (teardown sessionIdEnvironmentVariable s)
                              (m_serverProcesses s))
       = QMap.values (m_serverProcesses s)
    /\ List.NoDup (QMap.values (m_serverProcesses s))
    /\ (forall h, In h (QMap.values (m_serverProcesses s)) -> children s' !! h = None).
Proof.
  intros Hwf Hlen.
  destruct (stopAllServers_spec fuel s Hwf Hlen) as [s' [H1 [H2 [H3 [_ H5]]]]].
  exists s'. repeat split; try assumption.
  - apply terminations_teardown. apply Hwf.
  - apply Hwf.
Qed.

(** C6. In multi-session mode, for an eligible session: the worker is
    started with an environment in which the session-id variable holds
    the decimal form of the id that [openSession] returned; and when,
    after any signals about other sessions, the session-removed signal
    for this path arrives, [closeSession] is called with that same id. *)
Theorem session_id_round_trip w i p s others i' :
  wf s ->
  m_multiSession s = true ->
  sessionDisplay w (path p) <> EmptyString ->
  sessionEnvironment w (path p) <> ∅ ->
  is_int (openSession w (openArguments w (path p))) ->
  Forall (fun wn : World * Notification => notificationPath wn.2 <> path p) others ->
  let sessionId := openSession w (openArguments w (path p)) in
  let s1 := startServer w i p s in
  (exists t env,
      trace s1 = trace s ++ t ++ [ProcessStart (nextHandle s) serverFilePath env]
      /\ In (OpenSession (openArguments w (path p)) sessionId) t
      /\ env !! sessionIdEnvironmentVariable = Some (QString.number sessionId))
  /\ exists s2 s3,
      deliverAll others s1 = Done s2
      /\ stopServer i' p s2 = Done s3
      /\ trace s3 = trace s2 ++
           [LogInfo ["Stopping server for removed session"; path p];
            ProcessTerminate (nextHandle s);
            CloseSession sessionId;
            ProcessDelete (nextHandle s)].
Proof.
  intros Hwf Hmulti Hd He Hint Hothers sessionId s1.
  pose proof (wf_startServer w i p s Hwf) as Hwf1. fold s1 in Hwf1.
  destruct (startServer_launch w i p s Hd He) as [t [Heq [_ Hopen]]].
  fold s1 in Heq. rewrite Hmulti, workerEnvironment_multi in Heq.
  fold sessionId in Heq.
  set (env := <[sessionIdEnvironmentVariable := QString.number sessionId]>
                (sessionEnvironment w (path p))) in Heq.
  split.
  - exists t, env. rewrite Heq. simpl.
    split; [reflexivity|]. split; [now apply Hopen|].
    unfold env. apply lookup_insert_eq.
  - assert (QMap.find (path p) (m_serverProcesses s1) = Some (nextHandle s)) as Hf1
      by (rewrite Heq; simpl; apply find_assign_eq).
    assert (children s1 !! nextHandle s
            = Some {| processEnvironment := env; program := serverFilePath |}) as Hc1
      by (rewrite Heq; simpl; apply lookup_insert_eq).
    assert (m_multiSession s1 = true) as Hm1 by (now rewrite Heq).
    destruct (deliverAll_frame others s1 (path p) _ _ Hwf1 Hf1 Hc1 Hothers)
      as [s2 [Hrun [Hwf2 [Hf2 [Hc2 Hm2]]]]].
    exists s2. eexists. split; [exact Hrun|].
    rewrite stopServer_eq.
    assert (QMap.contains (path p) (m_serverProcesses s2) = true) as ->
      by (apply contains_find; eauto).
    rewrite (stopServerPath_eq _ _ _ _ Hf2 Hc2).
    split; [reflexivity|]. simpl. f_equal.
    unfold teardown. simpl. rewrite Hc2, Hm2, Hm1. simpl.
    unfold env_value, env. rewrite lookup_insert_eq. simpl.
    now rewrite (toInt_number sessionId Hint).
Qed.

(** C7. Whatever sessions the bootstrap lists and whatever signals the
    event loop then delivers, [run] started on a newly constructed
    object goes through without fault, and the map holds at most one
    item for any session path. *)
Theorem run_one_entry_per_session b w pending :
  exists s',
    run w pending (constructor b) = Done s'
    /\ forall sessionPath, (QMap.count sessionPath (m_serverProcesses s') <= 1)%nat.
Proof.
  destruct (run_wf w pending (constructor b) (wf_constructor b)) as [s' [Hrun Hwf']].
  exists s'. split; [exact Hrun|].
  intros sessionPath. apply count_le_1, sorted_NoDup, Hwf'.
Qed.

(** C1, as the code has it. When [ListSessions] fails, [listSessions]
    logs the error and returns the empty list: the bootstrap starts no
    server, and [run] goes on into the event loop, where the signals that
    arrive are handled as usual. *)
Theorem run_list_failure w pending s msg :
  ListSessions w = Error msg ->
  listSessions w s
  = ([], addTrace [DBusListSessions;
                   LogCritical ["QStringList LinuxServiceCore::listSessions()";
                                "Could not query sessions:"; msg]] s)
  /\ run w pending s
     = deliverAll pending
         (addTrace [DBusListSessions;
                    LogCritical ["QStringList LinuxServiceCore::listSessions()";
                                 "Could not query sessions:"; msg];
                    EventLoopExec] s).
Proof.
  intros H. unfold run, eventLoopExec, listSessions. rewrite H. simpl.
  rewrite !emit_addTrace, !addTrace_app. simpl. split; reflexivity.
Qed.

End ServiceFacts.

(** * The statements on the sample systems *)

Lemma sample_environment_nonempty (session : string) :
  sessionEnvironment graphicalWorld session <> ∅.
Proof.
  intros H. apply (f_equal (fun m : gmap string string => m !! "HOME"%string)) in H.
  vm_compute in H. discriminate.
Qed.

Lemma startServer_empty_display_witness :
  (getSessionDisplay consoleWorld (path session1) (constructor false)).1 = EmptyString
  /\ m_serverProcesses
       (startServer sampleVariable sampleServer consoleWorld "1" session1 (constructor false))
     = [].
Proof.
  split; [reflexivity|].
  apply (startServer_empty_display sampleVariable sampleServer
           consoleWorld "1" session1 (constructor false)).
  reflexivity.
Defined.

Lemma startServer_empty_environment_witness :
  sessionEnvironment bareWorld (path session1) = ∅
  /\ m_serverProcesses
       (startServer sampleVariable sampleServer bareWorld "1" session1 (constructor false))
     = [].
Proof.
  split; [reflexivity|].
  apply (startServer_empty_environment sampleVariable sampleServer
           bareWorld "1" session1 (constructor false)).
  reflexivity.
Defined.

Lemma stopServer_unknown_session_witness :
  QMap.contains (path session2) (m_serverProcesses oneServer) = false
  /\ stopServer sampleVariable "2" session2 oneServer = Done oneServer.
Proof.
  split; [reflexivity|].
  apply (stopServer_unknown_session sampleVariable "2" session2 oneServer).
  reflexivity.
Defined.

Lemma startServer_replaces_entry_witness :
  QMap.find (path session1) (m_serverProcesses oneServer) = Some 0%nat
  /\ QMap.find (path session1)
       (m_serverProcesses
          (startServer sampleVariable sampleServer graphicalWorld "1" session1 oneServer))
     = Some 1%nat.
Proof.
  split; [reflexivity|].
  apply (startServer_replaces_entry sampleVariable sampleServer
           graphicalWorld "1" session1 oneServer 0%nat).
  - apply wf_startServer, wf_constructor.
  - reflexivity.
  - vm_compute. discriminate.
  - apply sample_environment_nonempty.
Defined.

Lemma stopAllServers_drains_witness :
  length (m_serverProcesses threeServers) = 3%nat
  /\ exists s',
       stopAllServers sampleVariable 3 threeServers = Done s'
       /\ m_serverProcesses s' = [].
Proof.
  split; [reflexivity|].
  destruct (stopAllServers_drains sampleVariable 3 threeServers) as [s' [H1 [H2 _]]].
  - apply wf_startServers, wf_constructor.
  - vm_compute. lia.
  - exists s'. split; assumption.
Defined.

Lemma session_id_round_trip_witness :
  m_multiSession (constructor true) = true
  /\ openSession graphicalWorld (openArguments graphicalWorld (path session1)) = 7
  /\ exists s2 s3,
       deliverAll sampleVariable sampleServer
         [(graphicalWorld, SessionNew "2" session2);
          (graphicalWorld, SessionRemoved "2" session2)]
         (startServer sampleVariable sampleServer graphicalWorld "1" session1
                      (constructor true)) = Done s2
       /\ stopServer sampleVariable "1" session1 s2 = Done s3
       /\ trace s3 = trace s2 ++
            [LogInfo ["Stopping server for removed session"; path session1];
             ProcessTerminate 0%nat; CloseSession 7; ProcessDelete 0%nat].
Proof.
  split; [reflexivity|]. split; [reflexivity|].
  apply (session_id_round_trip sampleVariable sampleServer graphicalWorld
           "1" session1 (constructor true)
           [(graphicalWorld, SessionNew "2" session2);
            (graphicalWorld, SessionRemoved "2" session2)] "1").
  - apply wf_constructor.
  - reflexivity.
  - vm_compute. discriminate.
  - apply sample_environment_nonempty.
  - vm_compute. split; discriminate.
  - repeat constructor; vm_compute; discriminate.
Defined.

Lemma run_list_failure_witness :
  ListSessions unreachableWorld = Error "The name org.freedesktop.login1 was not provided"
  /\ run sampleVariable sampleServer unreachableWorld [] (constructor false)
     = Done (addTrace
               [DBusListSessions;
                LogCritical ["QStringList LinuxServiceCore::listSessions()";
                             "Could not query sessions:";
                             "The name org.freedesktop.login1 was not provided"];
                EventLoopExec] (constructor false)).
Proof.
  split; [reflexivity|].
  apply (run_list_failure sampleVariable sampleServer unreachableWorld []
           (constructor false) "The name org.freedesktop.login1 was not provided").
  reflexivity.
Defined.

(** C1, as stated, fails: with a failing [ListSessions] the run is not
    aborted, it reaches the event loop. *)
Lemma run_list_failure_enters_event_loop :
  ListSessions unreachableWorld = Error "The name org.freedesktop.login1 was not provided"
  /\ exists s',
       run sampleVariable sampleServer unreachableWorld [] (constructor false) = Done s'
       /\ In EventLoopExec (trace s').
Proof.
  split; [reflexivity|].
  eexists. split; [reflexivity|].
  simpl. right. right. right. right. now left.
Qed.


(** * Further properties of the environment scan *)

Lemma insertEntries_snoc (env : QProcessEnvironment) (block : list string) (raw : string) :
  insertEntries env (block ++ [raw]) = insertEntry (insertEntries env block) raw.
Proof. unfold insertEntries. now rewrite fold_left_app. Qed.

Lemma lastValue_snoc (name : string) (block : list string) (raw : string) :
  lastValue name (block ++ [raw])
  = if String.eqb (parseEntry raw).1 name then Some (parseEntry raw).2
    else lastValue name block.
Proof. unfold lastValue. now rewrite fold_left_app. Qed.

Lemma insertEntries_from (env : QProcessEnvironment) (block : list string) k v :
  insertEntries env block !! k = Some v ->
  env !! k = Some v \/ exists raw, In raw block /\ parseEntry raw = (k, v).
Proof.
  revert env. induction block as [|raw block IH]; intros env; simpl; [auto|].
  intros H. apply IH in H as [H|[raw' [Hin Hp]]].
  - unfold insertEntry in H. destruct (parseEntry raw) as [k0 v0] eqn:E. simpl in H.
    destruct (decide (k0 = k)) as [->|Hne].
    + rewrite lookup_insert_eq in H. injection H as ->. right. exists raw. auto.
    + rewrite lookup_insert_ne in H by assumption. now left.
  - right. exists raw'. auto.
Qed.

Lemma insertEntries_keeps (env : QProcessEnvironment) (block : list string) k :
  is_Some (env !! k) -> is_Some (insertEntries env block !! k).
Proof.
  revert env. induction block as [|raw block IH]; intros env H; simpl; [assumption|].
  apply IH. unfold insertEntry.
  destruct (decide ((parseEntry raw).1 = k)) as [<-|Hne].
  - rewrite lookup_insert_eq. eauto.
  - now rewrite lookup_insert_ne.
Qed.

Lemma insertEntries_has (env : QProcessEnvironment) (block : list string) raw :
  In raw block -> is_Some (insertEntries env block !! (parseEntry raw).1).
Proof.
  revert env. induction block as [|raw' block IH]; intros env; simpl; [tauto|].
  intros [->|Hin]; [|now apply IH].
  apply insertEntries_keeps. unfold insertEntry. rewrite lookup_insert_eq. eauto.
Qed.

Lemma scanStep_roots leader env ppids p x :
  In x ppids -> In x (scanStep leader (env, ppids) p).2.
Proof.
  intros H. unfold scanStep. destruct (selected leader ppids p); simpl; [|assumption].
  apply in_or_app. now left.
Qed.

Lemma scanStep_keys leader env ppids p k :
  is_Some (env !! k) -> is_Some ((scanStep leader (env, ppids) p).1 !! k).
Proof.
  intros H. unfold scanStep. destruct (selected leader ppids p); simpl; [|assumption].
  now apply insertEntries_keeps.
Qed.

Lemma scan_roots leader table : forall st x,
  In x st.2 -> In x (scan leader table st).2.
Proof.
  induction table as [|p table IH]; intros [env ppids] x H; simpl; [assumption|].
  apply IH. now apply scanStep_roots.
Qed.

Lemma scan_keys leader table : forall st k,
  is_Some (st.1 !! k) -> is_Some ((scan leader table st).1 !! k).
Proof.
  induction table as [|p table IH]; intros [env ppids] k H; simpl; [assumption|].
  apply IH. now apply scanStep_keys.
Qed.

Lemma descends_in_roots leader table : forall rest st,
  incl rest table ->
  (forall x, In x st.2 -> descends leader table x) ->
  forall x, In x (scan leader rest st).2 -> descends leader table x.
Proof.
  induction rest as [|p rest IH]; intros [env ppids] Hincl Hst x; simpl; [apply Hst|].
  apply IH.
  - intros q Hq. apply Hincl. now right.
  - intros y. unfold scanStep.
    destruct (selected leader ppids p) eqn:Es; simpl; [|apply Hst].
    intros Hy. apply in_app_or in Hy as [Hy|[<-|[]]]; [now apply Hst|].
    apply selected_iff in Es as [[Hl|Hp] _].
    + apply descends_child; [apply Hincl; now left|assumption].
    + apply descends_step; [apply Hincl; now left|]. now apply Hst.
Qed.

Lemma scan_from leader : forall rest st k v,
  (scan leader rest st).1 !! k = Some v ->
  st.1 !! k = Some v
  \/ exists p block raw,
       In p rest /\ environ p = Some block /\ In raw block /\ parseEntry raw = (k, v).
Proof.
  induction rest as [|p rest IH]; intros [env ppids] k v; simpl; [auto|].
  intros H. apply IH in H as [H|[q [block [raw [Hq Hrest]]]]].
  - unfold scanStep in H. destruct (selected leader ppids p) eqn:Es; simpl in H; [|now left].
    apply insertEntries_from in H as [H|[raw [Hin Hp]]]; [now left|].
    right. destruct (environ p) as [block|] eqn:Ee; [|contradiction].
    exists p, block, raw. simpl in Hin. auto.
  - right. exists q, block, raw. tauto.
Qed.

Lemma scan_no_child (table : list proc_t) (leader : Z) :
  (forall p, In p table -> ppid p = leader -> environ p = None) ->
  forall env, scan leader table (env, []) = (env, []).
Proof.
  induction table as [|p table IH]; intros H env; simpl; [reflexivity|].
  assert (selected leader [] p = false) as Hsel.
  { unfold selected. simpl. destruct (Z.eqb_spec (ppid p) leader) as [Hl|Hl]; simpl.
    - rewrite (H p (or_introl eq_refl) Hl). reflexivity.
    - reflexivity. }
  rewrite Hsel. apply IH. intros q Hq. apply H. now right.
Qed.

(** X3. Without a process whose parent is the leader and whose
    environment block is not null, nothing is selected: the result is the
    empty environment.  This covers the empty table and the unknown
    leader. *)
Theorem getSessionEnvironment_no_child (table : list proc_t) (leader : Z) :
  (forall p, In p table -> ppid p = leader -> environ p = None) ->
  getSessionEnvironment table leader = ∅.
Proof.
  intros H. unfold getSessionEnvironment.
  now rewrite (scan_no_child table leader H).
Qed.

Lemma getSessionEnvironment_no_child_witness :
  getSessionEnvironment sampleTable 4242 = ∅.
Proof.
  apply (getSessionEnvironment_no_child sampleTable 4242).
  intros p [<-|[<-|[<-|[]]]]; simpl; intros; try reflexivity; discriminate.
Defined.

(** X4. Every pid that the scan puts into its root set descends from the
    leader along the parent links of the table: no process outside the
    leader's subtree is ever merged. *)
Theorem scan_roots_descend (table : list proc_t) (leader x : Z) :
  In x (scan leader table (∅, [])).2 -> descends leader table x.
Proof.
  apply (descends_in_roots leader table table (∅, [])).
  - apply incl_refl.
  - intros y [].
Qed.

Lemma scan_roots_descend_witness :
  In 101 (scan 1 sampleTable (∅, [])).2 /\ descends 1 sampleTable 101.
Proof.
  assert (In 101 (scan 1 sampleTable (∅, [])).2) as H by (vm_compute; tauto).
  split; [exact H|]. exact (scan_roots_descend sampleTable 1 101 H).
Defined.

(** X5. The scan invents nothing: every variable of the result is the
    parse of some raw entry in the environment block of a process of the
    table. *)
Theorem getSessionEnvironment_from_table (table : list proc_t) (leader : Z) k v :
  getSessionEnvironment table leader !! k = Some v ->
  exists p block raw,
    In p table /\ environ p = Some block /\ In raw block /\ parseEntry raw = (k, v).
Proof.
  unfold getSessionEnvironment. intros H.
  apply scan_from in H as [H|H]; [|exact H].
  simpl in H. rewrite lookup_empty in H. discriminate.
Qed.

Lemma getSessionEnvironment_from_table_witness :
  getSessionEnvironment sampleTable 1 !! "LANG"%string = Some "C"%string
  /\ exists p block raw,
       In p sampleTable /\ environ p = Some block /\ In raw block
       /\ parseEntry raw = ("LANG", "C")%string.
Proof.
  assert (getSessionEnvironment sampleTable 1 !! "LANG"%string = Some "C"%string) as H
    by (vm_compute; reflexivity).
  split; [exact H|].
  exact (getSessionEnvironment_from_table sampleTable 1 "LANG" "C" H).
Defined.

(** X6. Within the entries merged into an environment the last write
    wins: after the loop a name holds the value of the last entry of the
    block that parses to it, and keeps its former value when no entry of
    the block parses to it. *)
Theorem insertEntries_last_wins (env : QProcessEnvironment) (block : list string)
    (name : string) :
  insertEntries env block !! name
  = match lastValue name block with
    | Some v => Some v
    | None => env !! name
    end.
Proof.
  induction block as [|raw block IH] using rev_ind; [reflexivity|].
  rewrite insertEntries_snoc, lastValue_snoc. unfold insertEntry.
  destruct (String.eqb_spec (parseEntry raw).1 name) as [<-|Hne].
  - apply lookup_insert_eq.
  - rewrite lookup_insert_ne by assumption. exact IH.
Qed.

(** X7. Parsing loses nothing: the name never holds ['='], and for an
    entry that holds ['='] name, ['='] and value put together give the
    entry back; an entry without ['='] is a name with the empty value. *)
Theorem parseEntry_round_trip (raw : string) :
  QString.contains eq_char (parseEntry raw).1 = false
  /\ (if QString.contains eq_char raw
      then String.append (parseEntry raw).1 (String eq_char (parseEntry raw).2) = raw
      else parseEntry raw = (raw, EmptyString)).
Proof.
  destruct (QString.contains eq_char raw) eqn:E.
  - destruct (first_eq_decompose _ _ E) as [k [v [-> Hk]]].
    unfold parseEntry. rewrite (split_at_first _ k v Hk). simpl.
    rewrite join_split. split; [assumption|reflexivity].
  - rewrite (parseEntry_no_eq raw E). simpl. split; [assumption|reflexivity].
Qed.

(** X8. Once selected, always kept: a process whose parent is the leader
    or in the root set built from the processes before it, and whose
    block is not null, has its pid in the final root set and the name of
    each of its entries set in the final environment, whatever follows in
    the table. *)
Theorem scan_selected_stays (leader : Z) (t1 t2 : list proc_t) (p : proc_t)
    (block : list string) :
  ppid p = leader \/ In (ppid p) (scan leader t1 (∅, [])).2 ->
  environ p = Some block ->
  In (tid p) (scan leader (t1 ++ p :: t2) (∅, [])).2
  /\ forall raw, In raw block ->
       is_Some (getSessionEnvironment (t1 ++ p :: t2) leader !! (parseEntry raw).1).
Proof.
  intros Hsel Hblock. unfold getSessionEnvironment.
  rewrite scan_app. destruct (scan leader t1 (∅, [])) as [env ppids] eqn:E1.
  simpl in Hsel. simpl.
  assert (selected leader ppids p = true) as ->.
  { apply selected_iff. split; [assumption|]. rewrite Hblock. discriminate. }
  rewrite Hblock. simpl. split.
  - apply scan_roots. simpl. apply in_or_app. right. now left.
  - intros raw Hin. apply scan_keys. simpl. now apply insertEntries_has.
Qed.

Lemma scan_selected_stays_witness :
  In 10 (scan 1 (mergeScenario 1) (∅, [])).2
  /\ is_Some (getSessionEnvironment (mergeScenario 1) 1 !! "A"%string).
Proof.
  destruct (scan_selected_stays 1 [] (skipn 1 (mergeScenario 1))
              {| tid := 10; ppid := 1; environ := Some ["A=1"%string] |}
              ["A=1"%string]) as [H1 H2].
  - now left.
  - reflexivity.
  - split; [exact H1|]. apply (H2 "A=1"%string). now left.
Defined.

(** X9. The pass depends on the order of the table.  A child of the
    leader followed by its own child gives both blocks; the same two
    processes in the other order give the block of the leader's child
    only, the grandchild being read before its parent is in the root
    set. *)
Theorem getSessionEnvironment_order (leader : Z) (c g : proc_t)
    (bc bg : list string) :
  ppid c = leader -> environ c = Some bc ->
  ppid g = tid c -> ppid g <> leader -> environ g = Some bg ->
  getSessionEnvironment [c; g] leader = insertEntries (insertEntries ∅ bc) bg
  /\ getSessionEnvironment [g; c] leader = insertEntries ∅ bc.
Proof.
  intros Hc Hbc Hg Hgl Hbg. unfold getSessionEnvironment, scan. simpl.
  assert (selected leader [] c = true) as Hsc.
  { apply selected_iff. split; [now left|]. rewrite Hbc. discriminate. }
  assert (selected leader [] g = false) as Hsg.
  { destruct (selected leader [] g) eqn:E; [|reflexivity].
    apply selected_iff in E as [[H|[]] _]. contradiction. }
  assert (selected leader [tid c] g = true) as Hsg'.
  { apply selected_iff. split; [right; left; congruence|]. rewrite Hbg. discriminate. }
  rewrite Hsc, Hsg. simpl. rewrite Hsc, Hsg'. simpl.
  rewrite Hbc, Hbg. split; reflexivity.
Qed.

Lemma getSessionEnvironment_order_witness :
  getSessionEnvironment
    [ {| tid := 11; ppid := 10; environ := Some ["B=2"%string] |};
      {| tid := 10; ppid := 1;  environ := Some ["A=1"%string] |} ] 1
  = insertEntries ∅ ["A=1"%string].
Proof.
  apply (getSessionEnvironment_order 1
           {| tid := 10; ppid := 1;  environ := Some ["A=1"%string] |}
           {| tid := 11; ppid := 10; environ := Some ["B=2"%string] |}
           ["A=1"%string] ["B=2"%string]); simpl; try reflexivity; lia.
Defined.


Lemma selected_in_roots (leader : Z) (t1 t2 : list proc_t) (p : proc_t) :
  selected leader (scan leader t1 (∅, [])).2 p = true ->
  In (tid p) (scan leader (t1 ++ p :: t2) (∅, [])).2.
Proof.
  intros Hsel. rewrite scan_app.
  destruct (scan leader t1 (∅, [])) as [env ppids]. simpl in *.
  rewrite Hsel. apply scan_roots. simpl. apply in_or_app. right. now left.
Qed.

Lemma roots_of_prefix (leader : Z) (a b : list proc_t) (q : proc_t) :
  selected leader (scan leader a (∅, [])).2 q = true ->
  In (tid q) (scan leader (a ++ q :: b) (∅, [])).2.
Proof. apply selected_in_roots. Qed.

Section ParentFirst.

Variable leader : Z.
Variable table : list proc_t.

(** No process is listed before its parent, and every process has an
    environment block. *)
Hypothesis parent_first :
  forall t1 p t2 q, table = t1 ++ p :: t2 -> In q t2 -> tid q <> ppid p.
Hypothesis has_environ : forall p, In p table -> environ p <> None.

Lemma child_of_root_selected t1 p t2 q :
  table = t1 ++ p :: t2 -> In q t1 -> ppid p = tid q ->
  (forall a b, t1 = a ++ q :: b -> selected leader (scan leader a (∅, [])).2 q = true) ->
  selected leader (scan leader t1 (∅, [])).2 p = true.
Proof.
  intros E Hq Hp Hsel. apply in_split in Hq as [a [b Hab]].
  apply selected_iff. split.
  - right. rewrite Hp, Hab. apply roots_of_prefix. exact (Hsel a b Hab).
  - apply has_environ. rewrite E. apply in_or_app. right. now left.
Qed.

Lemma descendants_selected x :
  descends leader table x ->
  forall t1 p t2, table = t1 ++ p :: t2 -> ppid p = x ->
    selected leader (scan leader t1 (∅, [])).2 p = true.
Proof.
  induction 1 as [q Hq Hl|q Hq Hd IH]; intros t1 p t2 E Hp.
  - pose proof Hq as Hq'. rewrite E in Hq'.
    apply in_app_or in Hq' as [Hin|[<-|Hin]].
    + apply (child_of_root_selected t1 p t2 q E Hin Hp).
      intros a b Hab. apply selected_iff. split; [now left|].
      apply has_environ, Hq.
    + apply selected_iff. split; [now left|]. apply has_environ, Hq.
    + exfalso. apply (parent_first t1 p t2 q E Hin). congruence.
  - pose proof Hq as Hq'. rewrite E in Hq'.
    apply in_app_or in Hq' as [Hin|[<-|Hin]].
    + apply (child_of_root_selected t1 p t2 q E Hin Hp).
      intros a b Hab. apply (IH a q (b ++ p :: t2)); [|reflexivity].
      rewrite E, Hab, <- app_assoc. reflexivity.
    + apply (IH t1 p t2 E eq_refl).
    + exfalso. apply (parent_first t1 p t2 q E Hin). congruence.
Qed.

End ParentFirst.

(** X22. On a table in which no process is listed before its parent and
    every process has an environment block, the pass misses nothing:
    every child of the leader and every child of a descendant of the
    leader ends up in the root set. *)
Theorem scan_complete_parent_first (leader : Z) (table : list proc_t) (p : proc_t) :
  (forall t1 p' t2 q, table = t1 ++ p' :: t2 -> In q t2 -> tid q <> ppid p') ->
  (forall q, In q table -> environ q <> None) ->
  In p table ->
  ppid p = leader \/ descends leader table (ppid p) ->
  In (tid p) (scan leader table (∅, [])).2.
Proof.
  intros Horder Henv Hin Hp.
  destruct (in_split _ _ Hin) as [t1 [t2 E]].
  rewrite E. apply selected_in_roots. destruct Hp as [Hl|Hd].
  - apply selected_iff. split; [now left|]. now apply Henv.
  - now apply (descendants_selected leader table Horder Henv _ Hd t1 p t2).
Qed.

Lemma scan_complete_parent_first_witness :
  In 11 (scan 1 (mergeScenario 1) (∅, [])).2.
Proof.
  apply (scan_complete_parent_first 1 (mergeScenario 1)
           {| tid := 11; ppid := 10; environ := Some ["B=2"%string] |}).
  - intros t1 p' t2 q E Hq.
    destruct t1 as [|a [|b [|c t1]]]; injection E; intros; subst; simpl in *.
    + destruct Hq as [<-|[<-|[]]]; simpl; lia.
    + destruct Hq as [<-|[]]; simpl; lia.
    + destruct Hq.
    + destruct t1; discriminate.
  - intros q [<-|[<-|[<-|[]]]]; discriminate.
  - right. now left.
  - right. apply (descends_child 1 (mergeScenario 1)
                    {| tid := 10; ppid := 1; environ := Some ["A=1"%string] |});
      [now left|reflexivity].
Defined.


(** * Further properties of the service *)

Section QMapMore.

Context {V : Type}.
Implicit Types (m : QMap.t V) (k : string) (v : V).

Lemma find_none_not_in m k : QMap.find k m = None -> ~ In k (QMap.keys m).
Proof.
  induction m as [|[k' v'] m IH]; simpl; [tauto|].
  destruct (String.eqb_spec k k') as [->|Hne]; [discriminate|].
  intros H [Hk|Hin]; [congruence|]. now apply IH.
Qed.

Lemma remove_assign_absent m k v :
  QMap.find k m = None -> QMap.remove k (QMap.assign k v m) = m.
Proof.
  induction m as [|[k' v'] m IH]; simpl.
  - intros _. now rewrite String.eqb_refl.
  - destruct (String.eqb_spec k k') as [->|Hne]; [discriminate|].
    intros Hf. destruct (String.compare k k') eqn:E; simpl.
    + apply String.compare_eq_iff in E. contradiction.
    + rewrite String.eqb_refl.
      assert (String.eqb k k' = false) as -> by now apply String.eqb_neq.
      f_equal. apply remove_not_in. now apply find_none_not_in.
    + assert (String.eqb k k' = false) as -> by now apply String.eqb_neq.
      f_equal. now apply IH.
Qed.

Lemma keys_assign_iff m k v x :
  In x (QMap.keys (QMap.assign k v m)) <-> x = k \/ In x (QMap.keys m).
Proof.
  induction m as [|[k' v'] m IH]; simpl.
  - intuition.
  - destruct (String.compare k k') eqn:E; simpl.
    + apply String.compare_eq_iff in E. subst k'. intuition.
    + intuition.
    + rewrite IH. intuition.
Qed.

Lemma contains_remove m k : QMap.contains k (QMap.remove k m) = false.
Proof.
  destruct (QMap.contains k (QMap.remove k m)) eqn:E; [|reflexivity].
  apply contains_find in E as [v Hv]. rewrite find_remove_eq in Hv. discriminate.
Qed.

End QMapMore.

Lemma launches_app t1 t2 : launches (t1 ++ t2) = launches t1 ++ launches t2.
Proof.
  induction t1 as [|e t1 IH]; simpl; [reflexivity|].
  destruct e; simpl; rewrite ?IH; reflexivity.
Qed.

Lemma launches_quiet t : Forall (fun e => quiet e = true) t -> launches t = [].
Proof.
  induction 1 as [|e t He _ IH]; simpl; [reflexivity|].
  destruct e; unfold quiet in *; simpl in *; try assumption. discriminate.
Qed.

Lemma launches_teardown var s item : launches (teardown var s item) = [].
Proof.
  unfold teardown. destruct (children s !! item.2); [|reflexivity].
  destruct (m_multiSession s); reflexivity.
Qed.

Lemma terminations_one var s k h obj :
  children s !! h = Some obj -> terminations (teardown var s (k, h)) = [h].
Proof.
  intros H. unfold teardown. simpl. rewrite H.
  destruct (m_multiSession s); reflexivity.
Qed.

Lemma propertyEffects_no_registry w session property :
  Forall (fun e => usesRegistry e = false) (propertyEffects w session property).
Proof.
  unfold propertyEffects, getSessionProperty.
  destruct (Get w session property); simpl; repeat constructor.
Qed.

Lemma sessionDisplay_failed w session msg :
  Get w session "Display" = Error msg -> sessionDisplay w session = EmptyString.
Proof.
  intros H. unfold sessionDisplay, getSessionDisplay, getSessionProperty.
  now rewrite H.
Qed.

Lemma sessionLeader_failed w session msg :
  Get w session "Leader" = Error msg -> sessionLeader w session = -1.
Proof.
  intros H. unfold sessionLeader, getSessionLeaderPid, getSessionProperty.
  now rewrite H.
Qed.

Section ServiceExtras.

Variable sessionIdEnvironmentVariable : string.
Variable serverFilePath : string.

Local Abbreviation startServer := (startServer sessionIdEnvironmentVariable serverFilePath).
Local Abbreviation stopServer := (stopServer sessionIdEnvironmentVariable).
Local Abbreviation stopServerPath := (stopServerPath sessionIdEnvironmentVariable).
Local Abbreviation stopAllServers := (stopAllServers sessionIdEnvironmentVariable).
Local Abbreviation startServers :=
  (startServers sessionIdEnvironmentVariable serverFilePath).
Local Abbreviation deliver := (deliver sessionIdEnvironmentVariable serverFilePath).
Local Abbreviation deliverAll := (deliverAll sessionIdEnvironmentVariable serverFilePath).
Local Abbreviation run := (run sessionIdEnvironmentVariable serverFilePath).
Local Abbreviation workerEnvironment :=
  (workerEnvironment sessionIdEnvironmentVariable).
Local Abbreviation teardown := (teardown sessionIdEnvironmentVariable).

(** X1. A property read that fails is logged once and gives the default
    of each getter: the empty display, the leader pid -1, the empty
    session id, the seat with empty id and path. *)
Theorem getters_on_failed_read w session msg s :
  (forall property, Get w session property = Error msg) ->
  getSessionDisplay w session s
  = (EmptyString, addTrace (failedRead session "Display" msg) s)
  /\ getSessionLeaderPid w session s
     = (-1, addTrace (failedRead session "Leader" msg) s)
  /\ getSessionId w session s
     = (EmptyString, addTrace (failedRead session "Id" msg) s)
  /\ getSessionSeat w session s
     = ({| LoginDBusSessionSeat.id := EmptyString;
           LoginDBusSessionSeat.path := EmptyString |},
        addTrace (failedRead session "Seat" msg) s).
Proof.
  intros H.
  unfold getSessionDisplay, getSessionLeaderPid, getSessionId, getSessionSeat,
    getSessionProperty.
  rewrite !H. simpl. unfold failedRead, addTrace, emit. simpl.
  repeat split; f_equal; f_equal; now trace_norm.
Qed.

(** X2. Failed reads never start a server.  When the [Display] read fails,
    or when the [Leader] read fails and no process with an environment
    block has parent pid -1, [startServer] leaves the map and the child
    processes as they are and launches nothing. *)
Theorem startServer_query_failure w i p s msg :
  Get w (path p) "Display" = Error msg
  \/ (Get w (path p) "Leader" = Error msg
      /\ forall q, In q (readproc w) -> ppid q = -1 -> environ q = None) ->
  m_serverProcesses (startServer w i p s) = m_serverProcesses s
  /\ children (startServer w i p s) = children s
  /\ exists t, trace (startServer w i p s) = trace s ++ t
               /\ Forall (fun e => isLaunch e = false) t.
Proof.
  intros H.
  assert (sessionDisplay w (path p) = EmptyString
          \/ sessionEnvironment w (path p) = ∅) as Hskip.
  { destruct H as [H|[Hl Hq]].
    - left. eapply sessionDisplay_failed; eauto.
    - right. unfold sessionEnvironment, getSessionEnvironment.
      rewrite (sessionLeader_failed _ _ _ Hl).
      now rewrite (scan_no_child _ _ Hq). }
  destruct (startServer_skip sessionIdEnvironmentVariable serverFilePath w i p s Hskip) as [t [-> Hq]]. simpl.
  split; [reflexivity|]. split; [reflexivity|].
  exists t. split; [reflexivity|].
  eapply List.Forall_impl; [|exact Hq]. apply quiet_not_launch.
Qed.

(** X10. For an eligible session that has no item yet, [startServer] puts
    the new process under the session path and under no other key, and
    the process object holds the worker environment and the server
    program. *)
Theorem startServer_adds_entry w i p s :
  sessionDisplay w (path p) <> EmptyString ->
  sessionEnvironment w (path p) <> ∅ ->
  QMap.find (path p) (m_serverProcesses (startServer w i p s)) = Some (nextHandle s)
  /\ (forall k, k <> path p ->
        QMap.find k (m_serverProcesses (startServer w i p s))
        = QMap.find k (m_serverProcesses s))
  /\ (forall k, In k (QMap.keys (m_serverProcesses (startServer w i p s)))
                <-> k = path p \/ In k (QMap.keys (m_serverProcesses s)))
  /\ children (startServer w i p s) !! nextHandle s
     = Some {| processEnvironment := workerEnvironment w (path p) (m_multiSession s);
               program := serverFilePath |}
  /\ launches (trace (startServer w i p s)) = launches (trace s) ++ [nextHandle s].
Proof.
  intros Hd He.
  destruct (startServer_launch sessionIdEnvironmentVariable serverFilePath w i p s Hd He) as [t [-> [Hq _]]]. simpl.
  split; [apply find_assign_eq|].
  split; [intros k Hk; apply find_assign_ne; congruence|].
  split; [intros k; apply keys_assign_iff|].
  split; [apply lookup_insert_eq|].
  rewrite !launches_app, (launches_quiet t Hq). reflexivity.
Qed.

(** X11. A session-removed signal for a path that has an item: the
    process of the item gets one termination request and is deleted, the
    path is no longer in the map, and the items of all other paths are as
    before. *)
Theorem stopServer_known_session i p s h :
  wf s ->
  QMap.find (path p) (m_serverProcesses s) = Some h ->
  exists s',
    stopServer i p s = Done s'
    /\ QMap.contains (path p) (m_serverProcesses s') = false
    /\ (forall k, k <> path p ->
          QMap.find k (m_serverProcesses s') = QMap.find k (m_serverProcesses s))
    /\ children s' = delete h (children s)
    /\ trace s' = trace s ++ teardown s (path p, h)
    /\ terminations (teardown s (path p, h)) = [h].
Proof.
  intros Hwf Hf.
  destruct (wf_live _ Hwf h (find_values _ _ _ Hf)) as [obj Hobj].
  rewrite stopServer_eq.
  assert (QMap.contains (path p) (m_serverProcesses s) = true) as ->
    by (apply contains_find; eauto).
  rewrite (stopServerPath_eq sessionIdEnvironmentVariable _ _ _ _ Hf Hobj).
  eexists. split; [reflexivity|]. simpl.
  split; [apply contains_remove|].
  split; [intros k Hk; apply find_remove_ne; congruence|].
  split; [reflexivity|]. split; [reflexivity|].
  eapply terminations_one; eauto.
Qed.

(** X12. Start, then stop: for an eligible path without an item, the
    session-removed signal after the session-added signal gives back the
    map and the child processes of before. *)
Theorem start_stop_restores w i i' p s :
  wf s ->
  QMap.find (path p) (m_serverProcesses s) = None ->
  sessionDisplay w (path p) <> EmptyString ->
  sessionEnvironment w (path p) <> ∅ ->
  exists s',
    stopServer i' p (startServer w i p s) = Done s'
    /\ m_serverProcesses s' = m_serverProcesses s
    /\ children s' = children s
    /\ terminations (trace s') = terminations (trace s) ++ [nextHandle s].
Proof.
  intros Hwf Hnone Hd He.
  destruct (startServer_launch sessionIdEnvironmentVariable serverFilePath w i p s Hd He) as [t [Heq [Hq _]]].
  set (s1 := startServer w i p s) in *.
  assert (QMap.find (path p) (m_serverProcesses s1) = Some (nextHandle s)) as Hf1
    by (rewrite Heq; simpl; apply find_assign_eq).
  assert (children s1 !! nextHandle s
          = Some {| processEnvironment := workerEnvironment w (path p) (m_multiSession s);
                    program := serverFilePath |}) as Hc1
    by (rewrite Heq; simpl; apply lookup_insert_eq).
  rewrite stopServer_eq.
  assert (QMap.contains (path p) (m_serverProcesses s1) = true) as ->
    by (apply contains_find; eauto).
  rewrite (stopServerPath_eq sessionIdEnvironmentVariable _ _ _ _ Hf1 Hc1).
  eexists. split; [reflexivity|]. simpl.
  assert (children s !! nextHandle s = None) as Hfresh.
  { destruct (children s !! nextHandle s) as [obj|] eqn:E; [|reflexivity].
    apply (wf_fresh _ Hwf) in E. lia. }
  split; [rewrite Heq; simpl; now apply remove_assign_absent|].
  split; [rewrite Heq; simpl; now apply delete_insert_id|].
  rewrite terminations_app,
    (terminations_one sessionIdEnvironmentVariable _ _ _ _ Hc1).
  rewrite Heq. simpl.
  rewrite !terminations_app, (terminations_quiet t Hq). simpl.
  now rewrite app_nil_r.
Qed.

(** X13. A repeated session-removed signal is harmless: after the slot
    has run once for a path, running it again for that path changes
    nothing. *)
Theorem stopServer_twice i i' p s :
  wf s ->
  exists s1, stopServer i p s = Done s1 /\ stopServer i' p s1 = Done s1.
Proof.
  intros Hwf. rewrite stopServer_eq.
  destruct (QMap.contains (path p) (m_serverProcesses s)) eqn:E.
  - apply contains_find in E as [h Hf].
    destruct (wf_live _ Hwf h (find_values _ _ _ Hf)) as [obj Hobj].
    rewrite (stopServerPath_eq sessionIdEnvironmentVariable _ _ _ _ Hf Hobj).
    eexists. split; [reflexivity|].
    rewrite stopServer_eq. simpl. now rewrite contains_remove.
  - exists s. split; [reflexivity|]. rewrite stopServer_eq. now rewrite E.
Qed.

(** X14. Signals about other sessions leave a session alone: whatever is
    delivered for other paths, the item of a path and its process object
    stay as they are, and no call faults. *)
Theorem other_sessions_untouched others s sessionPath h obj :
  wf s ->
  QMap.find sessionPath (m_serverProcesses s) = Some h ->
  children s !! h = Some obj ->
  Forall (fun wn : World * Notification => notificationPath wn.2 <> sessionPath) others ->
  exists s',
    deliverAll others s = Done s'
    /\ QMap.find sessionPath (m_serverProcesses s') = Some h
    /\ children s' !! h = Some obj.
Proof.
  intros Hwf Hf Hc Hothers.
  destruct (deliverAll_frame sessionIdEnvironmentVariable serverFilePath
              others s sessionPath h obj Hwf Hf Hc Hothers)
    as [s' [Hrun [_ [Hf' [Hc' _]]]]].
  exists s'. auto.
Qed.

(** ** The three ways through [startServer], effect by effect *)

Lemma startServer_display_eq w i p s :
  sessionDisplay w (path p) = EmptyString ->
  startServer w i p s = addTrace (propertyEffects w (path p) "Display") s.
Proof.
  intros Hd. unfold startServer. rewrite getSessionDisplay_eq.
  apply isEmpty_true in Hd. now rewrite Hd.
Qed.

Lemma startServer_environment_eq w i p s :
  sessionDisplay w (path p) <> EmptyString ->
  sessionEnvironment w (path p) = ∅ ->
  startServer w i p s = addTrace (resolveEffects w (path p)) s.
Proof.
  intros Hd He. unfold startServer. rewrite getSessionDisplay_eq.
  destruct (QString.isEmpty (sessionDisplay w (path p))) eqn:Ed;
    [apply isEmpty_true in Ed; contradiction|].
  rewrite getSessionLeaderPid_eq. unfold readSessionEnvironment.
  fold (sessionEnvironment w (path p)). rewrite He. simpl.
  rewrite emit_addTrace, !addTrace_app. unfold resolveEffects, addTrace.
  f_equal; rewrite <- ?app_assoc; reflexivity.
Qed.

Lemma startServer_launch_eq w i p s :
  sessionDisplay w (path p) <> EmptyString ->
  sessionEnvironment w (path p) <> ∅ ->
  startServer w i p s
  = mkCore (m_multiSession s)
           (QMap.assign (path p) (nextHandle s) (m_serverProcesses s))
           (<[ nextHandle s :=
                 {| processEnvironment := workerEnvironment w (path p) (m_multiSession s);
                    program := serverFilePath |} ]> (children s))
           (S (nextHandle s))
           (trace s ++ prepareEffects w (path p) (m_multiSession s) ++
              [ProcessStart (nextHandle s) serverFilePath
                            (workerEnvironment w (path p) (m_multiSession s))]).
Proof.
  intros Hd He. unfold startServer. rewrite getSessionDisplay_eq.
  destruct (QString.isEmpty (sessionDisplay w (path p))) eqn:Ed;
    [apply isEmpty_true in Ed; contradiction|].
  rewrite getSessionLeaderPid_eq. unfold readSessionEnvironment.
  fold (sessionEnvironment w (path p)).
  destruct (env_isEmpty (sessionEnvironment w (path p))) eqn:Ee;
    [apply env_isEmpty_true in Ee; contradiction|].
  simpl negb. cbv iota. rewrite getSessionSeat_eq.
  unfold addSessionId. fold (openArguments w (path p)).
  rewrite !emit_addTrace, !addTrace_app.
  change (m_multiSession (addTrace ?t s)) with (m_multiSession s).
  unfold prepareEffects, resolveEffects.
  destruct (m_multiSession s) eqn:Em;
    unfold newProcess, setServerProcesses, addTrace; simpl; rewrite Em;
    rewrite ?workerEnvironment_multi; f_equal; rewrite <- ?app_assoc;
    simpl; rewrite <- ?app_assoc; reflexivity.
Qed.

Lemma launches_property w session property :
  launches (propertyEffects w session property) = [].
Proof. apply launches_quiet, propertyEffects_quiet. Qed.

Lemma terminations_property w session property :
  terminations (propertyEffects w session property) = [].
Proof. apply terminations_quiet, propertyEffects_quiet. Qed.

Lemma prepareEffects_quiet w session b :
  Forall (fun e => quiet e = true) (prepareEffects w session b).
Proof.
  unfold prepareEffects, resolveEffects.
  rewrite !Forall_app. repeat split; try apply propertyEffects_quiet;
    destruct b; repeat constructor.
Qed.

Lemma resolveEffects_quiet w session :
  Forall (fun e => quiet e = true) (resolveEffects w session).
Proof.
  unfold resolveEffects.
  rewrite !Forall_app. repeat split; try apply propertyEffects_quiet;
    repeat constructor.
Qed.

(** X15. The worker gets the environment of the session, and in
    multi-session mode the session-id variable on top of it: every other
    name has the value it has in the resolved environment, and in
    single-session mode the two environments are the same. *)
Theorem worker_environment_of_session w i p s :
  sessionDisplay w (path p) <> EmptyString ->
  sessionEnvironment w (path p) <> ∅ ->
  exists t env,
    trace (startServer w i p s)
    = trace s ++ t ++ [ProcessStart (nextHandle s) serverFilePath env]
    /\ launches t = []
    /\ (forall name, name <> sessionIdEnvironmentVariable ->
          env !! name = sessionEnvironment w (path p) !! name)
    /\ (m_multiSession s = false -> env = sessionEnvironment w (path p)).
Proof.
  intros Hd He. rewrite (startServer_launch_eq w i p s Hd He). simpl.
  exists (prepareEffects w (path p) (m_multiSession s)),
         (workerEnvironment w (path p) (m_multiSession s)).
  split; [reflexivity|].
  split; [apply launches_quiet, prepareEffects_quiet|].
  split.
  - intros name Hne. destruct (m_multiSession s); [|reflexivity].
    rewrite workerEnvironment_multi. now rewrite lookup_insert_ne.
  - intros ->. reflexivity.
Qed.

(** ** Single-session mode stays away from the registry *)

Lemma registryFree_addTrace t s :
  Forall (fun e => usesRegistry e = false) t ->
  registryFree s -> registryFree (addTrace t s).
Proof.
  intros Ht [Hm Hs]. split; [assumption|]. simpl. apply Forall_app. auto.
Qed.

Lemma registryFree_startServer w i p s :
  registryFree s -> registryFree (startServer w i p s).
Proof.
  intros Hs.
  destruct (decide (sessionDisplay w (path p) = EmptyString)) as [Hd|Hd].
  { rewrite (startServer_display_eq w i p s Hd).
    apply registryFree_addTrace; [apply propertyEffects_no_registry|assumption]. }
  destruct (decide (sessionEnvironment w (path p) = ∅)) as [He|He].
  { rewrite (startServer_environment_eq w i p s Hd He).
    apply registryFree_addTrace; [|assumption]. unfold resolveEffects.
    rewrite !Forall_app. repeat split; try apply propertyEffects_no_registry.
    repeat constructor. }
  rewrite (startServer_launch_eq w i p s Hd He).
  destruct Hs as [Hm Hs]. split; [assumption|]. simpl. rewrite Hm.
  unfold prepareEffects, resolveEffects.
  rewrite !Forall_app. repeat split; try apply propertyEffects_no_registry;
    try assumption; repeat constructor.
Qed.

Lemma registryFree_deliver s wn :
  wf s -> registryFree s ->
  exists s', deliver s wn = Done s' /\ wf s' /\ registryFree s'.
Proof.
  intros Hwf Hs. destruct wn as [w [i p|i p]]; unfold deliver; simpl.
  - eexists. split; [reflexivity|].
    split; [now apply wf_startServer|now apply registryFree_startServer].
  - rewrite stopServer_eq.
    destruct (QMap.contains (path p) (m_serverProcesses s)) eqn:E; [|eauto].
    apply contains_find in E as [h Hf].
    destruct (wf_live _ Hwf h (find_values _ _ _ Hf)) as [obj Hobj].
    destruct (wf_stopServerPath sessionIdEnvironmentVariable _ _ _ Hwf Hf)
      as [s1 [Hs1 Hwf1]].
    exists s1. split; [exact Hs1|]. split; [exact Hwf1|].
    rewrite (stopServerPath_eq sessionIdEnvironmentVariable _ _ _ _ Hf Hobj) in Hs1.
    injection Hs1 as <-. destruct Hs as [Hm Hs]. split; [assumption|]. simpl.
    apply Forall_app. split; [assumption|].
    unfold teardown. simpl. rewrite Hobj, Hm.
    repeat constructor.
Qed.

Lemma registryFree_deliverAll pending : forall s,
  wf s -> registryFree s ->
  exists s', deliverAll pending s = Done s' /\ wf s' /\ registryFree s'.
Proof.
  induction pending as [|wn rest IH]; intros s Hwf Hs; simpl; [eauto|].
  destruct (registryFree_deliver s wn Hwf Hs) as [s1 [-> [Hwf1 Hs1]]]. simpl. auto.
Qed.

Lemma registryFree_startServers w sessions : forall s,
  registryFree s -> registryFree (startServers w sessions s).
Proof.
  unfold startServers.
  induction sessions as [|x l IH]; intros s Hs; simpl; [assumption|].
  apply IH. now apply registryFree_startServer.
Qed.

Lemma listSessions_addTrace w s :
  exists t, (listSessions w s).2 = addTrace t s
            /\ Forall (fun e => quiet e = true) t.
Proof.
  unfold listSessions. destruct (ListSessions w); simpl;
    rewrite ?emit_addTrace, ?addTrace_app; eexists; (split; [reflexivity|]);
    repeat constructor.
Qed.

Lemma quiet_no_registry_list t :
  Forall (fun e => quiet e = true) t ->
  Forall (fun e => isLaunch e = false /\ isTeardown e = false) t.
Proof.
  intros H. eapply List.Forall_impl; [|exact H].
  intros e He. split; [now apply quiet_not_launch|now apply quiet_not_teardown].
Qed.

(** X16. A single-session service never calls the session registry:
    whatever the bootstrap lists and the event loop delivers, the trace of
    [run] holds no [openSession] and no [closeSession]. *)
Theorem single_session_never_uses_registry w pending :
  exists s',
    run w pending (constructor false) = Done s'
    /\ Forall (fun e => usesRegistry e = false) (trace s').
Proof.
  unfold run, eventLoopExec.
  destruct (listSessions w (constructor false)) as [sessions s1] eqn:E.
  assert (wf s1 /\ registryFree s1) as [Hwf1 Hs1].
  { unfold listSessions in E.
    destruct (ListSessions w); injection E as _ <-;
      rewrite ?emit_addTrace, ?addTrace_app;
      (split; [apply wf_addTrace, wf_constructor|]);
      (apply registryFree_addTrace; [repeat constructor|]);
      split; [reflexivity|repeat constructor|reflexivity|repeat constructor]. }
  pose proof (wf_startServers sessionIdEnvironmentVariable serverFilePath
                w sessions s1 Hwf1) as Hwf2.
  pose proof (registryFree_startServers w sessions s1 Hs1) as Hs2.
  apply (wf_addTrace [EventLoopExec]) in Hwf2.
  apply (registryFree_addTrace [EventLoopExec]) in Hs2; [|repeat constructor].
  destruct (registryFree_deliverAll pending _ Hwf2 Hs2) as [s' [Hrun [_ [_ Hs']]]].
  exists s'. split; assumption.
Qed.

(** ** Terminations in the trace *)

Lemma NoDup_snoc {A : Type} (l : list A) (x : A) :
  List.NoDup l -> ~ In x l -> List.NoDup (l ++ [x]).
Proof.
  induction l as [|a l IH]; simpl; intros Hnd Hx.
  - constructor; [intros []|constructor].
  - apply NoDup_cons_iff in Hnd as [Ha Hl]. constructor.
    + intros Hin. apply in_app_or in Hin as [Hin|[<-|[]]]; [contradiction|].
      apply Hx. now left.
    + apply IH; [assumption|]. intros Hin. apply Hx. now right.
Qed.

Lemma traceSafe_addTrace t s :
  terminations t = [] -> launches t = [] -> traceSafe s -> traceSafe (addTrace t s).
Proof.
  intros Ht Hl Hs. unfold traceSafe in *. simpl.
  rewrite terminations_app, launches_app, Ht, Hl, !app_nil_r. exact Hs.
Qed.

Lemma traceSafe_startServer w i p s :
  wf s -> traceSafe s -> traceSafe (startServer w i p s).
Proof.
  intros Hwf Hs.
  destruct (decide (sessionDisplay w (path p) = EmptyString)) as [Hd|Hd].
  { rewrite (startServer_display_eq w i p s Hd).
    apply traceSafe_addTrace;
      [apply terminations_property|apply launches_property|assumption]. }
  destruct (decide (sessionEnvironment w (path p) = ∅)) as [He|He].
  { rewrite (startServer_environment_eq w i p s Hd He).
    apply traceSafe_addTrace; [| |assumption].
    - apply terminations_quiet, resolveEffects_quiet.
    - apply launches_quiet, resolveEffects_quiet. }
  rewrite (startServer_launch_eq w i p s Hd He).
  destruct Hs as [Hnd [Hterm Hlive]]. unfold traceSafe. simpl.
  pose proof (prepareEffects_quiet w (path p) (m_multiSession s)) as Hq.
  rewrite !terminations_app, !launches_app.
  rewrite (terminations_quiet _ Hq), (launches_quiet _ Hq). simpl.
  rewrite app_nil_r.
  split; [assumption|]. split.
  - intros h Hh. destruct (Hterm h Hh) as [H1 [H2 H3]].
    split; [apply in_or_app; now left|]. split; [lia|].
    rewrite lookup_insert_ne; [assumption|lia].
  - intros h obj Hl. destruct (decide (nextHandle s = h)) as [<-|Hne].
    + apply in_or_app. right. now left.
    + rewrite lookup_insert_ne in Hl by assumption.
      apply in_or_app. left. eapply Hlive; eauto.
Qed.

Lemma traceSafe_deliver s wn :
  wf s -> traceSafe s ->
  exists s', deliver s wn = Done s' /\ wf s' /\ traceSafe s'.
Proof.
  intros Hwf Hs. destruct wn as [w [i p|i p]]; unfold deliver; simpl.
  - eexists. split; [reflexivity|].
    split; [now apply wf_startServer|now apply traceSafe_startServer].
  - rewrite stopServer_eq.
    destruct (QMap.contains (path p) (m_serverProcesses s)) eqn:E; [|eauto].
    apply contains_find in E as [h Hf].
    destruct (wf_live _ Hwf h (find_values _ _ _ Hf)) as [obj Hobj].
    destruct (wf_stopServerPath sessionIdEnvironmentVariable _ _ _ Hwf Hf)
      as [s1 [Hs1 Hwf1]].
    exists s1. split; [exact Hs1|]. split; [exact Hwf1|].
    rewrite (stopServerPath_eq sessionIdEnvironmentVariable _ _ _ _ Hf Hobj) in Hs1.
    injection Hs1 as <-. destruct Hs as [Hnd [Hterm Hlive]].
    unfold traceSafe. simpl.
    rewrite terminations_app, launches_app, launches_teardown, app_nil_r.
    rewrite (terminations_one sessionIdEnvironmentVariable _ _ _ _ Hobj).
    split; [|split].
    + apply NoDup_snoc; [assumption|]. intros Hin.
      destruct (Hterm h Hin) as [_ [_ Hgone]]. congruence.
    + intros h' Hin. apply in_app_or in Hin as [Hin|[<-|[]]].
      * destruct (Hterm h' Hin) as [H1 [H2 H3]].
        split; [assumption|]. split; [assumption|].
        destruct (decide (h = h')) as [<-|Hne];
          [apply lookup_delete_eq|now rewrite lookup_delete_ne].
      * split; [eapply Hlive; eauto|].
        split; [eapply wf_fresh; eauto|apply lookup_delete_eq].
    + intros h' obj' Hl. destruct (decide (h = h')) as [<-|Hne].
      * rewrite lookup_delete_eq in Hl. discriminate.
      * rewrite lookup_delete_ne in Hl by assumption. eapply Hlive; eauto.
Qed.

Lemma traceSafe_deliverAll pending : forall s,
  wf s -> traceSafe s ->
  exists s', deliverAll pending s = Done s' /\ wf s' /\ traceSafe s'.
Proof.
  induction pending as [|wn rest IH]; intros s Hwf Hs; simpl; [eauto|].
  destruct (traceSafe_deliver s wn Hwf Hs) as [s1 [-> [Hwf1 Hs1]]]. simpl. auto.
Qed.

Lemma traceSafe_startServers w sessions : forall s,
  wf s -> traceSafe s -> wf (startServers w sessions s) /\ traceSafe (startServers w sessions s).
Proof.
  unfold startServers.
  induction sessions as [|x l IH]; intros s Hwf Hs; simpl; [auto|].
  apply IH; [now apply wf_startServer|now apply traceSafe_startServer].
Qed.

Lemma traceSafe_constructor b : traceSafe (constructor b).
Proof.
  unfold traceSafe. simpl. split; [constructor|]. split.
  - intros h [].
  - intros h obj H. rewrite lookup_empty in H. discriminate.
Qed.

(** X17. In every run, no process is asked twice to terminate, and every
    process that was asked to terminate had been started by the service
    and is deleted. *)
Theorem run_terminations_sound b w pending :
  exists s',
    run w pending (constructor b) = Done s'
    /\ List.NoDup (terminations (trace s'))
    /\ forall h, In h (terminations (trace s')) ->
         In h (launches (trace s')) /\ children s' !! h = None.
Proof.
  unfold run, eventLoopExec.
  destruct (listSessions_addTrace w (constructor b)) as [t [Hl Hq]].
  destruct (listSessions w (constructor b)) as [sessions s1]. simpl in Hl. subst s1.
  assert (wf (addTrace t (constructor b))) as Hwf1
    by apply wf_addTrace, wf_constructor.
  assert (traceSafe (addTrace t (constructor b))) as Hs1.
  { apply traceSafe_addTrace;
      [now apply terminations_quiet|now apply launches_quiet|apply traceSafe_constructor]. }
  destruct (traceSafe_startServers w sessions _ Hwf1 Hs1) as [Hwf2 Hs2].
  apply (wf_addTrace [EventLoopExec]) in Hwf2.
  apply (traceSafe_addTrace [EventLoopExec]) in Hs2; [|reflexivity|reflexivity].
  destruct (traceSafe_deliverAll pending _ Hwf2 Hs2)
    as [s' [Hrun [_ [Hnd [Hterm _]]]]].
  exists s'. split; [exact Hrun|]. split; [exact Hnd|].
  intros h Hh. destruct (Hterm h Hh) as [H1 [_ H3]]. auto.
Qed.

(** ** The bootstrap loop *)

Lemma startServer_keys w i p s k :
  In k (QMap.keys (m_serverProcesses (startServer w i p s)))
  <-> In k (QMap.keys (m_serverProcesses s)) \/ (k = path p /\ eligible w (path p)).
Proof.
  unfold eligible.
  destruct (decide (sessionDisplay w (path p) = EmptyString)) as [Hd|Hd].
  { rewrite (startServer_display_eq w i p s Hd). simpl. tauto. }
  destruct (decide (sessionEnvironment w (path p) = ∅)) as [He|He].
  { rewrite (startServer_environment_eq w i p s Hd He). simpl. tauto. }
  rewrite (startServer_launch_eq w i p s Hd He). simpl.
  rewrite keys_assign_iff. tauto.
Qed.

(** X18. After the loop over the listed sessions the map holds, besides
    the keys it held before, exactly the listed session paths that are
    eligible: those with a non-empty display and a non-empty resolved
    environment. *)
Theorem startServers_keys w sessions s k :
  In k (QMap.keys (m_serverProcesses (startServers w sessions s)))
  <-> In k (QMap.keys (m_serverProcesses s)) \/ (In k sessions /\ eligible w k).
Proof.
  unfold startServers. revert s.
  induction sessions as [|x l IH]; intros s; simpl; [tauto|].
  rewrite IH, startServer_keys. simpl. split.
  - intros [[H|[-> H]]|[H1 H2]]; auto.
  - intros [H|[[<-|H1] H2]]; auto.
Qed.

(** ** Shutdown *)

Lemma stopAllServers_frame fuel : forall s s',
  wf s -> stopAllServers fuel s = Done s' ->
  forall h, ~ In h (QMap.values (m_serverProcesses s)) ->
            children s' !! h = children s !! h.
Proof.
  induction fuel as [|fuel IH]; intros s s' Hwf Hrun h Hh.
  - simpl in Hrun. destruct (m_serverProcesses s); simpl in Hrun; [|discriminate].
    now injection Hrun as <-.
  - change (stopAllServers (S fuel) s)
      with (if QMap.isEmpty (m_serverProcesses s) then Done s
            else bind (stopServerPath (QMap.firstKey (m_serverProcesses s)) s)
                      (stopAllServers fuel)) in Hrun.
    destruct (m_serverProcesses s) as [|[k h0] m] eqn:Em;
      cbn [QMap.isEmpty QMap.firstKey] in Hrun; [now injection Hrun as <-|].
    assert (QMap.find k (m_serverProcesses s) = Some h0) as Hf
      by (rewrite Em; simpl; now rewrite String.eqb_refl).
    destruct (wf_live _ Hwf h0 (find_values _ _ _ Hf)) as [obj Hobj].
    destruct (wf_stopServerPath sessionIdEnvironmentVariable _ _ _ Hwf Hf)
      as [s1 [Hs1 Hwf1]].
    rewrite Hs1 in Hrun. simpl in Hrun.
    rewrite (stopServerPath_eq sessionIdEnvironmentVariable _ _ _ _ Hf Hobj) in Hs1.
    injection Hs1 as Heq.
    rewrite (IH s1 s' Hwf1 Hrun h).
    + rewrite <- Heq. simpl. apply lookup_delete_ne.
      intros <-. apply Hh. simpl. now left.
    + rewrite <- Heq. simpl. intros Hin. apply values_remove in Hin.
      apply Hh. now rewrite <- Em.
Qed.

(** X19. Shutdown reaches the processes of the map only.  After a
    session-added signal has replaced the item of a path, the process
    recorded before gets no termination request when all servers are
    stopped, and is still a child object when the map is empty. *)
Theorem orphan_survives_shutdown w i p s old fuel :
  wf s ->
  QMap.find (path p) (m_serverProcesses s) = Some old ->
  sessionDisplay w (path p) <> EmptyString ->
  sessionEnvironment w (path p) <> ∅ ->
  (length (m_serverProcesses s) <= fuel)%nat ->
  exists s2 t,
    stopAllServers fuel (startServer w i p s) = Done s2
    /\ m_serverProcesses s2 = []
    /\ trace s2 = trace s ++ t
    /\ ~ In old (terminations t)
    /\ children s2 !! old = children s !! old
    /\ children s !! old <> None.
Proof.
  intros Hwf Hf Hd He Hlen.
  pose proof (wf_startServer sessionIdEnvironmentVariable serverFilePath w i p s Hwf)
    as Hwf1.
  pose proof (startServer_launch_eq w i p s Hd He) as Heq.
  set (s1 := startServer w i p s) in *.
  pose proof (find_values _ _ _ Hf) as Hin.
  pose proof (wf_values_lt _ _ Hwf Hin) as Hlt.
  assert (~ In old (QMap.values (m_serverProcesses s1))) as Hgone.
  { rewrite Heq. simpl.
    apply assign_drops_old; [apply Hwf|apply Hwf|assumption|lia]. }
  assert (length (m_serverProcesses s1) = length (m_serverProcesses s)) as Hl1.
  { rewrite <- (length_map fst (m_serverProcesses s1)),
            <- (length_map fst (m_serverProcesses s)).
    change (length (QMap.keys (m_serverProcesses s1))
            = length (QMap.keys (m_serverProcesses s))).
    f_equal. rewrite Heq. simpl.
    eapply keys_assign_present; [apply Hwf|eassumption]. }
  destruct (stopAllServers_spec sessionIdEnvironmentVariable fuel s1 Hwf1)
    as [s2 [Hrun [Hempty [Htr _]]]]; [lia|].
  assert (trace s1
          = trace s ++ prepareEffects w (path p) (m_multiSession s) ++
              [ProcessStart (nextHandle s) serverFilePath
                            (workerEnvironment w (path p) (m_multiSession s))]) as Ht1
    by (rewrite Heq; reflexivity).
  exists s2,
    ((prepareEffects w (path p) (m_multiSession s) ++
        [ProcessStart (nextHandle s) serverFilePath
                      (workerEnvironment w (path p) (m_multiSession s))])
     ++ flat_map (teardown s1) (m_serverProcesses s1)).
  split; [exact Hrun|]. split; [exact Hempty|].
  split; [rewrite Htr, Ht1; now rewrite <- !app_assoc|].
  split; [|split].
  - rewrite !terminations_app.
    rewrite (terminations_quiet _ (prepareEffects_quiet w (path p) (m_multiSession s))).
    simpl.
    rewrite (terminations_teardown sessionIdEnvironmentVariable s1
               (m_serverProcesses s1) (wf_live _ Hwf1)).
    exact Hgone.
  - rewrite (stopAllServers_frame fuel s1 s2 Hwf1 Hrun old Hgone).
    rewrite Heq. simpl. apply lookup_insert_ne. lia.
  - destruct (wf_live _ Hwf _ Hin) as [obj ->]. discriminate.
Qed.

(** X20. Stopping all servers twice is stopping them once: after the
    loop has emptied the map, a second call returns at once, whatever its
    fuel, and changes nothing. *)
Theorem stopAllServers_twice fuel s :
  wf s -> (length (m_serverProcesses s) <= fuel)%nat ->
  exists s',
    stopAllServers fuel s = Done s'
    /\ forall fuel', stopAllServers fuel' s' = Done s'.
Proof.
  intros Hwf Hlen.
  destruct (stopAllServers_spec sessionIdEnvironmentVariable fuel s Hwf Hlen)
    as [s' [Hrun [Hempty _]]].
  exists s'. split; [exact Hrun|].
  intros [|fuel']; simpl; now rewrite Hempty.
Qed.

(** X21. The destructor after any run: whatever [run] has been through,
    the map is sorted by session path, and the destructor, given fuel for
    one iteration per item, stops the servers in that order without fault
    and leaves the map empty. *)
Theorem run_then_destructor b w pending :
  exists s1 s2,
    run w pending (constructor b) = Done s1
    /\ QMap.sorted (m_serverProcesses s1)
    /\ destructor sessionIdEnvironmentVariable (length (m_serverProcesses s1)) s1 = Done s2
    /\ m_serverProcesses s2 = []
    /\ terminations (trace s2)
       = terminations (trace s1) ++ QMap.values (m_serverProcesses s1).
Proof.
  destruct (run_wf sessionIdEnvironmentVariable serverFilePath w pending
              (constructor b) (wf_constructor b)) as [s1 [Hrun Hwf1]].
  destruct (stopAllServers_spec sessionIdEnvironmentVariable
              (length (m_serverProcesses s1)) s1 Hwf1 (le_n _))
    as [s2 [Hstop [Hempty [Htr _]]]].
  exists s1, s2. split; [exact Hrun|]. split; [apply Hwf1|].
  split; [exact Hstop|]. split; [exact Hempty|].
  rewrite Htr, terminations_app. f_equal.
  apply terminations_teardown. apply Hwf1.
Qed.

End ServiceExtras.

(** * The further statements on the sample systems *)

Lemma getters_on_failed_read_witness :
  getSessionLeaderPid unreachableWorld (path session1) (constructor false)
  = (-1, addTrace (failedRead (path session1) "Leader"
                     "The name org.freedesktop.login1 was not provided")
                  (constructor false)).
Proof.
  apply (getters_on_failed_read unreachableWorld (path session1)
           "The name org.freedesktop.login1 was not provided" (constructor false)).
  intros property. reflexivity.
Defined.

Lemma startServer_query_failure_witness :
  m_serverProcesses
    (startServer sampleVariable sampleServer unreachableWorld "1" session1 oneServer)
  = m_serverProcesses oneServer.
Proof.
  apply (startServer_query_failure sampleVariable sampleServer unreachableWorld
           "1" session1 oneServer "The name org.freedesktop.login1 was not provided").
  left. reflexivity.
Defined.

Lemma startServer_adds_entry_witness :
  QMap.find (path session2)
    (m_serverProcesses
       (startServer sampleVariable sampleServer graphicalWorld "2" session2 oneServer))
  = Some 1%nat.
Proof.
  apply (startServer_adds_entry sampleVariable sampleServer graphicalWorld
           "2" session2 oneServer).
  - vm_compute. discriminate.
  - apply sample_environment_nonempty.
Defined.

Lemma stopServer_known_session_witness :
  exists s',
    stopServer sampleVariable "1" session1 oneServer = Done s'
    /\ QMap.contains (path session1) (m_serverProcesses s') = false.
Proof.
  destruct (stopServer_known_session sampleVariable "1" session1 oneServer 0%nat)
    as [s' [H1 [H2 _]]].
  - apply wf_startServer, wf_constructor.
  - reflexivity.
  - exists s'. split; assumption.
Defined.

Lemma start_stop_restores_witness :
  exists s',
    stopServer sampleVariable "2" session2
      (startServer sampleVariable sampleServer graphicalWorld "2" session2 oneServer)
    = Done s'
    /\ m_serverProcesses s' = m_serverProcesses oneServer
    /\ children s' = children oneServer.
Proof.
  destruct (start_stop_restores sampleVariable sampleServer graphicalWorld
              "2" "2" session2 oneServer) as [s' [H1 [H2 [H3 _]]]].
  - apply wf_startServer, wf_constructor.
  - reflexivity.
  - vm_compute. discriminate.
  - apply sample_environment_nonempty.
  - exists s'. auto.
Defined.

Lemma stopServer_twice_witness :
  exists s1,
    stopServer sampleVariable "1" session1 oneServer = Done s1
    /\ stopServer sampleVariable "1" session1 s1 = Done s1.
Proof.
  apply (stopServer_twice sampleVariable "1" "1" session1 oneServer).
  apply wf_startServer, wf_constructor.
Defined.

Lemma other_sessions_untouched_witness :
  exists s',
    deliverAll sampleVariable sampleServer
      [(graphicalWorld, SessionNew "2" session2);
       (consoleWorld, SessionNew "3" session3);
       (graphicalWorld, SessionRemoved "2" session2)] oneServer = Done s'
    /\ QMap.find (path session1) (m_serverProcesses s') = Some 0%nat.
Proof.
  destruct (other_sessions_untouched sampleVariable sampleServer
              [(graphicalWorld, SessionNew "2" session2);
               (consoleWorld, SessionNew "3" session3);
               (graphicalWorld, SessionRemoved "2" session2)]
              oneServer (path session1) 0%nat
              {| processEnvironment := sessionEnvironment graphicalWorld (path session1);
                 program := sampleServer |})
    as [s' [H1 [H2 _]]].
  - apply wf_startServer, wf_constructor.
  - reflexivity.
  - vm_compute. reflexivity.
  - repeat constructor; vm_compute; discriminate.
  - exists s'. auto.
Defined.

Lemma worker_environment_of_session_witness :
  exists t env,
    trace (startServer sampleVariable sampleServer graphicalWorld "1" session1
                       (constructor true))
    = trace (constructor true) ++ t ++ [ProcessStart 0%nat sampleServer env]
    /\ env !! "HOME"%string = Some "/home/alice"%string.
Proof.
  destruct (worker_environment_of_session sampleVariable sampleServer graphicalWorld
              "1" session1 (constructor true)) as [t [env [H1 [_ [H3 _]]]]].
  - vm_compute. discriminate.
  - apply sample_environment_nonempty.
  - exists t, env. split; [exact H1|].
    rewrite (H3 "HOME"%string); [vm_compute; reflexivity|vm_compute; discriminate].
Defined.

Lemma orphan_survives_shutdown_witness :
  exists s2 t,
    stopAllServers sampleVariable 1
      (startServer sampleVariable sampleServer graphicalWorld "1" session1 oneServer)
    = Done s2
    /\ trace s2 = trace oneServer ++ t
    /\ ~ In 0%nat (terminations t)
    /\ children s2 !! 0%nat <> None.
Proof.
  destruct (orphan_survives_shutdown sampleVariable sampleServer graphicalWorld
              "1" session1 oneServer 0%nat 1)
    as [s2 [t [H1 [_ [H3 [H4 [H5 H6]]]]]]].
  - apply wf_startServer, wf_constructor.
  - reflexivity.
  - vm_compute. discriminate.
  - apply sample_environment_nonempty.
  - vm_compute. lia.
  - exists s2, t. split; [exact H1|]. split; [exact H3|]. split; [exact H4|].
    intros Hn. apply H6. etransitivity; [symmetry; exact H5|exact Hn].
Defined.

Lemma stopAllServers_twice_witness :
  exists s',
    stopAllServers sampleVariable 3 threeServers = Done s'
    /\ stopAllServers sampleVariable 0 s' = Done s'.
Proof.
  destruct (stopAllServers_twice sampleVariable 3 threeServers) as [s' [H1 H2]].
  - apply wf_startServers, wf_constructor.
  - vm_compute. lia.
  - exists s'. split; [exact H1|apply H2].
Defined.

(** The bootstrap over a console and a graphical session keeps the
    graphical one. *)
Lemma startServers_mixed_example :
  QMap.keys (m_serverProcesses
               (startServers sampleVariable sampleServer mixedWorld
                  [path session2; path session1] (constructor false)))
  = [path session1].
Proof. vm_compute. reflexivity. Qed.
